(** * Krypton_2K25 translator: particle field and task coordination

    A shallow embedding of [src/main.py] (the Tkinter translator) and the
    properties of its particle animation, history log, debounce timer and
    background workers.

    Modelling conventions.
    - Python [int] is [Z].  Python [float] is modelled by the rational it
      denotes ([Q]) with exact addition; IEEE rounding is not modelled.  The
      concrete evaluations below only use small dyadic values, on which float
      arithmetic is exact.
    - A particle (a Python [dict] with the keys x, y, dx, dy, size, color, id)
      is a record; the field for key [k] is named [p_k].
    - Code that mutates the widget or draws random numbers is written in a
      state monad over the environment it touches.
    - The [random] module and the Tk canvas are external; they are modelled by
      their documented contracts. *)

From Stdlib Require Import ZArith QArith Qabs Qminmax List Lia Lqa.
From stdpp Require Import gmap strings sorting.
Import ListNotations.
Local Open Scope Z_scope.

(** ** State monad *)

Module St.

Definition M (S A : Type) : Type := S -> A * S.

Definition ret {S A : Type} (a : A) : M S A := fun s => (a, s).

Definition bind {S A B : Type} (m : M S A) (k : A -> M S B) : M S B :=
  fun s => let '(a, s') := m s in k a s'.

Definition modify {S : Type} (f : S -> S) : M S unit := fun s => (tt, f s).

End St.

Notation "x <- m ;; k" := (St.bind m (fun x => k))
  (at level 100, m at next level, right associativity).
Notation "m >> k" := (St.bind m (fun _ => k))
  (at level 100, right associativity).

(** ** The particle field: [class ParticleCanvas] *)

Module ParticleCanvas.

(** *** Environment: canvas items, widget geometry, timers, random source *)

(** A canvas oval: its bounding box and the two colours the code sets. *)
Record item := mk_item {
  i_coords : Q * Q * Q * Q;
  i_fill : string;
  i_outline : string
}.

(** The state of the [random] module, as a tape of future draws: integer
    draws feed [randint] and [choice], float draws feed [uniform].  An
    exhausted tape yields 0. *)
Record random_state := mk_random {
  int_draws : list Z;
  float_draws : list Q
}.

(** What the widget code can observe and change outside its own attributes.
    Tk reports window sizes as non-negative pixel counts, hence [N]. *)
Record env := mk_env {
  winfo_width : N;
  winfo_height : N;
  items : gmap Z item;
  next_item : Z;
  after_log : list (Z * string);
  rng : random_state
}.

Definition Tk (A : Type) : Type := St.M env A.

Definition set_items (m : gmap Z item) (e : env) : env :=
  mk_env (winfo_width e) (winfo_height e) m (next_item e) (after_log e) (rng e).

Definition set_rng (g : random_state) (e : env) : env :=
  mk_env (winfo_width e) (winfo_height e) (items e) (next_item e) (after_log e) g.

(** [random.randint(a, b)]: an integer N with a <= N <= b.  It raises
    [ValueError] when b < a; every call below has a = 0 and b >= 0. *)
Definition randint (a b : Z) : Tk Z := fun e =>
  let g := rng e in
  let k := hd 0 (int_draws g) in
  (a + k mod (b - a + 1),
   set_rng (mk_random (tl (int_draws g)) (float_draws g)) e).

(** [random.uniform(a, b)]: a float N with a <= N <= b. *)
Definition uniform (a b : Q) : Tk Q := fun e =>
  let g := rng e in
  let r := hd 0%Q (float_draws g) in
  (Qmax a (Qmin b r),
   set_rng (mk_random (int_draws g) (tl (float_draws g))) e).

(** [random.choice(seq)] for a non-empty sequence. *)
Definition choice (seq : list string) : Tk string := fun e =>
  let g := rng e in
  let k := hd 0 (int_draws g) in
  (nth (Z.to_nat (k mod Z.of_nat (length seq))) seq "",
   set_rng (mk_random (tl (int_draws g)) (float_draws g)) e).

(** [Canvas.create_oval]: a new item, whose fresh integer id is returned. *)
Definition create_oval (x0 y0 x1 y1 : Q) (fill outline : string) : Tk Z :=
  fun e =>
    (next_item e,
     mk_env (winfo_width e) (winfo_height e)
       (<[next_item e := mk_item (x0, y0, x1, y1) fill outline]> (items e))
       (next_item e + 1) (after_log e) (rng e)).

(** [Canvas.coords(id, ...)]: moves the item; no effect without such an item. *)
Definition coords (id : Z) (x0 y0 x1 y1 : Q) : Tk unit :=
  St.modify (fun e =>
    set_items (alter (fun it => mk_item (x0, y0, x1, y1) (i_fill it) (i_outline it))
                 id (items e)) e).

(** [Canvas.itemconfig(id, fill=.., outline=..)]. *)
Definition itemconfig (id : Z) (fill outline : string) : Tk unit :=
  St.modify (fun e =>
    set_items (alter (fun it => mk_item (i_coords it) fill outline) id (items e)) e).

(** [Canvas.delete(id)]: releases the item. *)
Definition delete_item (id : Z) : Tk unit :=
  St.modify (fun e => set_items (delete id (items e)) e).

(** [widget.after(ms, callback)]: the request is recorded; the event loop
    that later runs it is outside the widget. *)
Definition after (ms : Z) (callback : string) : Tk unit :=
  St.modify (fun e =>
    mk_env (winfo_width e) (winfo_height e) (items e) (next_item e)
      (after_log e ++ [(ms, callback)]) (rng e)).

(** [self.winfo_width() or 1] and [self.winfo_height() or 1]. *)
Definition width_or_1 : Tk Z := fun e =>
  (if (winfo_width e =? 0)%N then 1 else Z.of_N (winfo_width e), e).

Definition height_or_1 : Tk Z := fun e =>
  (if (winfo_height e =? 0)%N then 1 else Z.of_N (winfo_height e), e).

(** *** Particles *)

Record particle := mk_particle {
  p_x : Q;
  p_y : Q;
  p_dx : Q;
  p_dy : Q;
  p_size : Z;
  p_color : string;
  p_id : Z
}.

Definition set_x (v : Q) (p : particle) : particle :=
  mk_particle v (p_y p) (p_dx p) (p_dy p) (p_size p) (p_color p) (p_id p).

Definition set_y (v : Q) (p : particle) : particle :=
  mk_particle (p_x p) v (p_dx p) (p_dy p) (p_size p) (p_color p) (p_id p).

Definition set_dx (v : Q) (p : particle) : particle :=
  mk_particle (p_x p) (p_y p) v (p_dy p) (p_size p) (p_color p) (p_id p).

Definition NEON_COLORS : list string :=
  ["#00f5ff"; "#ff00e6"; "#4dff6e"; "#ff9a00"; "#7a5cff"].

(** The widget's own attributes together with its environment. *)
Record state := mk_state {
  desired_count : Z;
  particles : list particle;
  tk : env
}.

(** [_create_particle] *)
Definition _create_particle : Tk particle :=
  size <- randint 6 50 ;;
  dx <- uniform (-(3 # 2)) (3 # 2) ;;
  dy <- uniform (3 # 10) (16 # 10) ;;
  color <- choice NEON_COLORS ;;
  id <- create_oval 0 0 (inject_Z size) (inject_Z size) "" "" ;;
  St.ret (mk_particle 0 0 dx dy size color id).

(** [_draw_particle] *)
Definition _draw_particle (p : particle) : Tk unit :=
  coords (p_id p) (p_x p) (p_y p)
    (p_x p + inject_Z (p_size p)) (p_y p + inject_Z (p_size p)) >>
  itemconfig (p_id p) (p_color p) "".

(** The body of the [for] loop of [_scatter_particles]. *)
Definition scatter_particle (width height : Z) (p : particle) : Tk particle :=
  x <- randint 0 width ;;
  y <- randint 0 height ;;
  let p' := set_y (inject_Z y) (set_x (inject_Z x) p) in
  _draw_particle p' >>
  St.ret p'.

(** A [for particle in self.particles] loop whose body updates the particle
    in place. *)
Fixpoint for_each (body : particle -> Tk particle) (ps : list particle)
  : Tk (list particle) :=
  match ps with
  | [] => St.ret []
  | p :: rest =>
      p' <- body p ;;
      rest' <- for_each body rest ;;
      St.ret (p' :: rest')
  end.

(** [_scatter_particles] *)
Definition _scatter_particles (width height : Z) (self : state) : state :=
  if (width <=? 1) || (height <=? 1) then self
  else
    let '(ps, e) := for_each (scatter_particle width height) (particles self) (tk self) in
    mk_state (desired_count self) ps e.

(** [_handle_resize]: the <Configure> event carries the new size. *)
Record event := mk_event { ev_width : Z; ev_height : Z }.

Definition _handle_resize (ev : event) (self : state) : state :=
  _scatter_particles (ev_width ev) (ev_height ev) self.

(** The body of the [for] loop of [_animate]. *)
Definition animate_particle (width height : Z) (p : particle) : Tk particle :=
  let p1 := set_x (p_x p + p_dx p)%Q p in
  let p2 := set_y (p_y p1 + p_dy p1)%Q p1 in
  let p3 :=
    if Qle_bool (p_x p2) 0 || Qle_bool (inject_Z width) (p_x p2)
    then set_dx (p_dx p2 * (-1 # 1))%Q p2
    else p2 in
  p4 <- (if Qle_bool (inject_Z height) (p_y p3)
         then
           let q := set_y (inject_Z (- p_size p3)) p3 in
           x <- randint 0 width ;;
           St.ret (set_x (inject_Z x) q)
         else St.ret p3) ;;
  _draw_particle p4 >>
  St.ret p4.

(** [_animate]: one tick of the animation. *)
Definition _animate (self : state) : state :=
  let '(ps, e) :=
    (width <- width_or_1 ;;
     height <- height_or_1 ;;
     ps <- for_each (animate_particle width height) (particles self) ;;
     after 35 "_animate" >>
     St.ret ps) (tk self) in
  mk_state (desired_count self) ps e.

(** The body of the first [while] loop of [set_particle_count], up to the
    [append]: a new particle, placed at random and drawn. *)
Definition place_new_particle : Tk particle :=
  new_particle <- _create_particle ;;
  width <- width_or_1 ;;
  height <- height_or_1 ;;
  x <- randint 0 width ;;
  y <- randint 0 height ;;
  let new_particle := set_y (inject_Z y) (set_x (inject_Z x) new_particle) in
  _draw_particle new_particle >>
  St.ret new_particle.

(** The first [while] loop of [set_particle_count].  [fuel] bounds the number
    of iterations; [set_particle_count] supplies [count - current], which is
    exactly the number of iterations the loop makes. *)
Fixpoint grow (fuel : nat) (current count : Z) (ps : list particle)
  : Tk (Z * list particle) :=
  match fuel with
  | O => St.ret (current, ps)
  | S fuel' =>
      if current <? count then
        new_particle <- place_new_particle ;;
        grow fuel' (current + 1) count (ps ++ [new_particle])
      else St.ret (current, ps)
  end.

(** [list.pop()] on a non-empty list: the last element and the rest. *)
Definition pop (ps : list particle) : option (particle * list particle) :=
  match rev ps with
  | [] => None
  | p :: r => Some (p, rev r)
  end.

(** The second [while] loop of [set_particle_count]. *)
Fixpoint shrink (fuel : nat) (current count : Z) (ps : list particle)
  : Tk (Z * list particle) :=
  match fuel with
  | O => St.ret (current, ps)
  | S fuel' =>
      if count <? current then
        match pop ps with
        | None => St.ret (current, ps)
        | Some (p, ps') =>
            delete_item (p_id p) >>
            shrink fuel' (current - 1) count ps'
        end
      else St.ret (current, ps)
  end.

(** [set_particle_count] *)
Definition set_particle_count (count : Z) (self : state) : state :=
  let count := Z.max 5 (Z.min count 150) in
  let current := Z.of_nat (length (particles self)) in
  let '((_, ps), e) :=
    (r <- grow (Z.to_nat (count - current)) current count (particles self) ;;
     let '(current, ps) := r in
     shrink (Z.to_nat (current - count)) current count ps) (tk self) in
  mk_state count ps e.

(** [reseed] *)
Definition reseed (self : state) : state :=
  let w := fst (width_or_1 (tk self)) in
  let h := fst (height_or_1 (tk self)) in
  let self := _scatter_particles w h self in
  set_particle_count (desired_count self) self.

(** [__init__]: [particle_count] particles are created, then the first tick
    is requested. *)
Fixpoint create_particles (n : nat) : Tk (list particle) :=
  match n with
  | O => St.ret []
  | S n' =>
      p <- _create_particle ;;
      rest <- create_particles n' ;;
      St.ret (p :: rest)
  end.

Definition __init__ (particle_count : Z) (e : env) : state :=
  let '(ps, e') :=
    (ps <- create_particles (Z.to_nat particle_count) ;;
     after 35 "_animate" >>
     St.ret ps) e in
  mk_state particle_count ps e'.

(** [n] ticks of the animation. *)
Fixpoint ticks (n : nat) (self : state) : state :=
  match n with
  | O => self
  | S n' => ticks n' (_animate self)
  end.

(** *** Notions and example states the properties are stated with *)

(** The widget geometry is not changed by anything the widget code calls. *)
Definition same_geometry (e e' : env) : Prop :=
  winfo_width e' = winfo_width e /\ winfo_height e' = winfo_height e.

(** The bounce test of [_animate], on the advanced horizontal position. *)
Definition bounces (width : Z) (p : particle) : bool :=
  Qle_bool (p_x p + p_dx p) 0 || Qle_bool (inject_Z width) (p_x p + p_dx p).

(** The wrap test of [_animate], on the advanced vertical position. *)
Definition wraps (height : Z) (p : particle) : bool :=
  Qle_bool (inject_Z height) (p_y p + p_dy p).

(** The width and height a tick works with. *)
Definition tick_width (self : state) : Z := fst (width_or_1 (tk self)).
Definition tick_height (self : state) : Z := fst (height_or_1 (tk self)).

(** What one tick does to the particle at each position of the list. *)
Definition tick_step (width height : Z) (p p' : particle) : Prop :=
  p_dx p' = (if bounces width p then - p_dx p else p_dx p)%Q /\
  p_dy p' = p_dy p /\
  p_size p' = p_size p /\
  p_color p' = p_color p /\
  p_id p' = p_id p /\
  (if wraps height p
   then p_y p' = inject_Z (- p_size p) /\
        exists x : Z, 0 <= x <= width /\ p_x p' = inject_Z x
   else p_y p' = (p_y p + p_dy p)%Q /\ p_x p' = (p_x p + p_dx p)%Q).

(** A field of one particle standing on the right edge and moving right. *)
Definition edge_particle : particle :=
  mk_particle 10 3 1 (1 # 2) 6 "#00f5ff" 1.

Definition edge_field : state :=
  mk_state 1 [edge_particle] (mk_env 10 10 ∅ 2 [] (mk_random [] [])).

(** A field of one particle at the lower left corner, moving left and down. *)
Definition corner_particle : particle :=
  mk_particle 0 10 (- (1)) 1 6 "#00f5ff" 1.

Definition corner_field : state :=
  mk_state 1 [corner_particle] (mk_env 10 10 ∅ 2 [] (mk_random [7] [])).

(** The largest size [_create_particle] gives a particle. *)
Definition maxSize : Z := 50.

(** The largest horizontal speed [_create_particle] gives a particle. *)
Definition maxSpeed : Q := 3 # 2.

(** The ranges [_create_particle] draws size and velocity from. *)
Definition as_created (p : particle) : Prop :=
  (- maxSpeed <= p_dx p <= maxSpeed)%Q /\
  ((3 # 10) <= p_dy p <= (16 # 10))%Q /\
  6 <= p_size p <= maxSize.

(** The viewport: x in [0, width] and y in [-maxSize, height]. *)
Definition in_viewport (width height : Z) (p : particle) : Prop :=
  (0 <= p_x p <= inject_Z width)%Q /\
  (inject_Z (- maxSize) <= p_y p <= inject_Z height)%Q.

(** The box the code keeps a particle in: one velocity step of slack on
    either side horizontally. *)
Definition in_reach (width height : Z) (p : particle) : Prop :=
  (- maxSpeed <= p_x p <= inject_Z width + maxSpeed)%Q /\
  (inject_Z (- maxSize) <= p_y p <= inject_Z height)%Q.

(** The invariant of the tick: a particle is inside the horizontal range, or
    it overshot an edge and its velocity now brings it back in one step. *)
Definition tick_inv (width height : Z) (p : particle) : Prop :=
  as_created p /\
  ((0 <= p_x p <= inject_Z width)%Q
   \/ (p_x p < 0 /\ 0 <= p_x p + p_dx p)%Q
   \/ (inject_Z width < p_x p /\ p_x p + p_dx p <= inject_Z width)%Q) /\
  (inject_Z (- maxSize) <= p_y p <= inject_Z height)%Q.

(** A field of one freshly created particle (x = 0) that moves left. *)
Definition fresh_particle : particle :=
  mk_particle 0 0 (- (1)) 1 6 "#00f5ff" 1.

Definition fresh_field : state :=
  mk_state 1 [fresh_particle] (mk_env 10 10 ∅ 2 [] (mk_random [] [])).

(** The number of particles [set_particle_count] settles on. *)
Definition clamp_count (n : Z) : Z := Z.max 5 (Z.min n 150).

(** A field of six particles. *)
Definition six_field : state := set_particle_count 6 fresh_field.

(** The field as the application creates it: 40 particles in a window of
    300 by 200. *)
Definition forty_field : state :=
  __init__ 40 (mk_env 300 200 ∅ 1 [] (mk_random [] [])).

(** *** The canvas and the particle list taken together *)

(** The canvas handles of a list of particles, in order. *)
Definition handles (ps : list particle) : list Z := map p_id ps.

(** The particle list [ps] and the environment [e] agree: no two particles
    share a handle, the canvas holds an item for every particle and no other
    item, and every handle was handed out by [create_oval] before. *)
Definition consistent_with (ps : list particle) (e : env) : Prop :=
  NoDup (handles ps) /\
  dom (items e) = (list_to_set (handles ps) : gset Z) /\
  Forall (fun k => k < next_item e) (handles ps).

Definition consistent (self : state) : Prop :=
  consistent_with (particles self) (tk self).

(** The canvas item [_draw_particle] leaves for a particle. *)
Definition drawn_item (p : particle) : item :=
  mk_item (p_x p, p_y p,
           (p_x p + inject_Z (p_size p))%Q, (p_y p + inject_Z (p_size p))%Q)
    (p_color p) "".

(** Every particle of [ps] is shown where it is, in its colour. *)
Definition drawn_with (ps : list particle) (e : env) : Prop :=
  Forall (fun p => items e !! p_id p = Some (drawn_item p)) ps.

Definition drawn (self : state) : Prop :=
  drawn_with (particles self) (tk self).

(** The ways the application drives the widget: a timer tick, a <Configure>
    event, and the two public methods. *)
Inductive op : Type :=
| op_tick
| op_resize (ev : event)
| op_set_count (n : Z)
| op_reseed.

Definition apply_op (o : op) (self : state) : state :=
  match o with
  | op_tick => _animate self
  | op_resize ev => _handle_resize ev self
  | op_set_count n => set_particle_count n self
  | op_reseed => reseed self
  end.

Definition run_ops (ops : list op) (self : state) : state :=
  fold_left (fun s o => apply_op o s) ops self.

(** What a tick may change of a particle besides its position: only the
    sign of the horizontal velocity. *)
Definition same_body (p p' : particle) : Prop :=
  p_size p' = p_size p /\
  p_color p' = p_color p /\
  p_id p' = p_id p /\
  p_dy p' = p_dy p /\
  (p_dx p' = p_dx p \/ p_dx p' = (- p_dx p)%Q).

(** The particle stands on an integer position of the window. *)
Definition inside (width height : Z) (p : particle) : Prop :=
  exists x y : Z,
    0 <= x <= width /\ 0 <= y <= height /\
    p_x p = inject_Z x /\ p_y p = inject_Z y.

(** A window of 300 by 200 with an empty canvas. *)
Definition empty_window : env :=
  mk_env 300 200 ∅ 1 [] (mk_random [3; 1; 4; 1; 5; 9; 2; 6] []).

(** [e'] is [e] with the item of particle [p] redrawn, if there is one. *)
Definition redraws (p : particle) (e e' : env) : Prop :=
  next_item e' = next_item e /\
  after_log e' = after_log e /\
  forall k, items e' !! k
            = if decide (k = p_id p)
              then (fun _ => drawn_item p) <$> items e !! k
              else items e !! k.

(** A loop body that keeps the handle of its particle and redraws it. *)
Definition body_redraws (body : particle -> Tk particle) : Prop :=
  forall p e,
    p_id (fst (body p e)) = p_id p /\
    redraws (fst (body p e)) e (snd (body p e)).

End ParticleCanvas.

(** ** Python strings *)

Module Str.

(** A Python [str] is a sequence of code points. *)
Definition str : Type := list N.

(** The ellipsis the history preview appends, U+2026. *)
Definition ellipsis : str := [8230%N].

(** [c.isspace()], the characters [str.strip()] and [str.split()] treat as
    white space. *)
Definition isspace (c : N) : bool :=
  ((9 <=? c) && (c <=? 13) || (28 <=? c) && (c <=? 32)
   || (c =? 133) || (c =? 160) || (c =? 5760)
   || (8192 <=? c) && (c <=? 8202)
   || (c =? 8232) || (c =? 8233) || (c =? 8239) || (c =? 8287)
   || (c =? 12288))%N.

Fixpoint lstrip (drop_it : N -> bool) (s : str) : str :=
  match s with
  | [] => []
  | c :: rest => if drop_it c then lstrip drop_it rest else s
  end.

(** [s.strip()] and [s.strip(chars)]. *)
Definition strip_with (drop_it : N -> bool) (s : str) : str :=
  rev (lstrip drop_it (rev (lstrip drop_it s))).

Definition strip (s : str) : str := strip_with isspace s.

(** [len(s.split())]: the number of maximal runs of non-space characters. *)
Fixpoint count_words (in_word : bool) (s : str) : nat :=
  match s with
  | [] => O
  | c :: rest =>
      if isspace c then count_words false rest
      else if in_word then count_words true rest
      else S (count_words true rest)
  end.

End Str.

(** ** The application: [class TranslatorApp] *)

Module TranslatorApp.
Import Str.

(** *** The history log *)

(** [collections.deque(maxlen=...)], oldest element first. *)
Record deque (A : Type) := mk_deque {
  maxlen : nat;
  elems : list A
}.
Arguments mk_deque {A} _ _.
Arguments maxlen {A} _.
Arguments elems {A} _.

(** [deque.append(x)]: the element is added on the right and, when the
    length then exceeds [maxlen], one element is dropped from the left. *)
Definition deque_append {A : Type} (x : A) (d : deque A) : deque A :=
  let l := elems d ++ [x] in
  mk_deque (maxlen d) (if (maxlen d <? length l)%nat then tl l else l).

(** A history entry: (preview_src, preview_dest, detected, target). *)
Definition entry : Type := str * str * str * str.

(** [self.history = deque(maxlen=10)] in [__init__]. *)
Definition initial_history : deque entry := mk_deque 10 [].

(** [(s[:120] + "…") if len(s) > 120 else s] *)
Definition preview (s : str) : str :=
  if (120 <? length s)%nat then take 120 s ++ ellipsis else s.

(** [_record_history] *)
Definition _record_history (source translation detected target : str)
    (history : deque entry) : deque entry :=
  let preview_src := preview source in
  let preview_dest := preview translation in
  deque_append (preview_src, preview_dest, detected, target) history.

(** The history after a sequence of recorded translations, the only way
    the application changes the log. *)
Definition record_all (calls : list (str * str * str * str))
    (history : deque entry) : deque entry :=
  fold_left (fun h '(source, translation, detected, target) =>
               _record_history source translation detected target h)
    calls history.

(** *** Timers, the input box and the translate action *)

(** The callbacks the application hands to [root.after]. *)
Inductive callback : Type :=
| cb_translate
| cb_on_input_change.

(** A pending [after] request: its id, the time it is due, its callback. *)
Record timer := mk_timer {
  tm_id : nat;
  tm_due : Z;
  tm_callback : callback
}.

(** The part of the application the debounce logic reads and writes.
    [now], [timers] and [next_after] are the state of the Tk event loop;
    [source_text] is what [source_text.get("1.0", END)] returns;
    [workers] lists the arguments of the translation threads started so far
    and [dispatched] the timer callbacks the event loop has run, with the
    time each was due. *)
Record app := mk_app {
  now : Z;
  timers : list timer;
  next_after : nat;
  source_text : str;
  source_lang_var : string;
  target_lang_var : string;
  status_var : string;
  char_count_var : nat * nat;
  typing_job : option nat;
  workers : list (str * string * string);
  dispatched : list (Z * callback)
}.

Definition set_timers (ts : list timer) (a : app) : app :=
  mk_app (now a) ts (next_after a) (source_text a) (source_lang_var a)
    (target_lang_var a) (status_var a) (char_count_var a) (typing_job a)
    (workers a) (dispatched a).

Definition set_typing_job (j : option nat) (a : app) : app :=
  mk_app (now a) (timers a) (next_after a) (source_text a) (source_lang_var a)
    (target_lang_var a) (status_var a) (char_count_var a) j (workers a)
    (dispatched a).

(** [set_status] (the tooltip mirrors the status text). *)
Definition set_status (message : string) (a : app) : app :=
  mk_app (now a) (timers a) (next_after a) (source_text a) (source_lang_var a)
    (target_lang_var a) message (char_count_var a) (typing_job a) (workers a)
    (dispatched a).

(** [threading.Thread(target=self._translate_worker, args=...).start()] *)
Definition start_worker (args : str * string * string) (a : app) : app :=
  mk_app (now a) (timers a) (next_after a) (source_text a) (source_lang_var a)
    (target_lang_var a) (status_var a) (char_count_var a) (typing_job a)
    (workers a ++ [args]) (dispatched a).

(** [self.auto_translate_delay = 650], set in [__init__] and never changed. *)
Definition auto_translate_delay : Z := 650.

(** [root.after(ms, callback)]: a new timer due [ms] from now; its id is
    returned (Tk names it "after#n", a non-empty string). *)
Definition after (ms : Z) (cb : callback) (a : app) : nat * app :=
  (next_after a,
   mk_app (now a) (timers a ++ [mk_timer (next_after a) (now a + ms) cb])
     (S (next_after a)) (source_text a) (source_lang_var a)
     (target_lang_var a) (status_var a) (char_count_var a) (typing_job a)
     (workers a) (dispatched a)).

(** [root.after_cancel(id)]: the pending timer with this id, if any, is
    dropped. *)
Definition after_cancel (id : nat) (a : app) : app :=
  set_timers (filter (fun t => tm_id t <> id) (timers a)) a.

(** [_update_char_count] *)
Definition _update_char_count (a : app) : app :=
  let text := strip_with (fun c => (c =? 10)%N) (source_text a) in
  let words := match text with [] => O | _ => count_words false text end in
  let chars := length text in
  mk_app (now a) (timers a) (next_after a) (source_text a) (source_lang_var a)
    (target_lang_var a) (status_var a) (words, chars) (typing_job a)
    (workers a) (dispatched a).

Section Languages.

(** [LANGUAGE_MAP], built from the table of the translation library: display
    name to language code. *)
Variable LANGUAGE_MAP : gmap string string.

(** ["auto" if src_name == "Auto Detect" else LANGUAGE_MAP[src_name]] *)
Definition source_code (src_name : string) : option string :=
  if String.eqb src_name "Auto Detect" then Some "auto"
  else LANGUAGE_MAP !! src_name.

(** [translate].  A name missing from [LANGUAGE_MAP] raises [KeyError]
    before anything is changed; Tk reports it and carries on. *)
Definition translate (a : app) : app :=
  let text := strip (source_text a) in
  match text with
  | [] => set_status "Type something to translate." a
  | _ =>
      let src_name := source_lang_var a in
      let tgt_name := target_lang_var a in
      match source_code src_name, LANGUAGE_MAP !! tgt_name with
      | Some src_code, Some tgt_code =>
          let a := set_status "Translating…" a in
          let a := start_worker (text, src_code, tgt_code) a in
          set_typing_job None a
      | _, _ => a
      end
  end.

(** [_on_input_change] *)
Definition _on_input_change (a : app) : app :=
  let a := _update_char_count a in
  let a := match typing_job a with
           | Some id => after_cancel id a
           | None => a
           end in
  let '(id, a) := after auto_translate_delay cb_translate a in
  set_typing_job (Some id) a.

Definition run_callback (cb : callback) (a : app) : app :=
  match cb with
  | cb_translate => translate a
  | cb_on_input_change => _on_input_change a
  end.

(** The pending timer the event loop runs next: the earliest due, the
    oldest among equals. *)
Fixpoint earliest (ts : list timer) : option timer :=
  match ts with
  | [] => None
  | t :: rest =>
      match earliest rest with
      | Some t' => if tm_due t' <? tm_due t then Some t' else Some t
      | None => Some t
      end
  end.

(** One turn of the event loop up to time [t]: the next timer, if it is due
    by then, is removed and its callback run at its due time. *)
Definition dispatch (t : Z) (a : app) : option app :=
  match earliest (timers a) with
  | Some tm =>
      if tm_due tm <=? t then
        let a := after_cancel (tm_id tm) a in
        let a := mk_app (Z.max (now a) (tm_due tm)) (timers a) (next_after a)
                   (source_text a) (source_lang_var a) (target_lang_var a)
                   (status_var a) (char_count_var a) (typing_job a)
                   (workers a)
                   (dispatched a ++ [(tm_due tm, tm_callback tm)]) in
        Some (run_callback (tm_callback tm) a)
      else None
  | None => None
  end.

(** The event loop runs until no timer is due by [t]; [fuel] bounds the
    number of callbacks run. *)
Fixpoint run_until (fuel : nat) (t : Z) (a : app) : app :=
  match fuel with
  | O => a
  | S fuel' =>
      match dispatch t a with
      | Some a' => run_until fuel' t a'
      | None => a
      end
  end.

(** A key release at time [t] that leaves [text] in the input box: the
    timers due by then have run, the clock stands at [t], and the
    <KeyRelease> binding calls [_on_input_change]. *)
Definition key_release (fuel : nat) (t : Z) (text : str) (a : app) : app :=
  let a := run_until fuel t a in
  let a := mk_app (Z.max (now a) t) (timers a) (next_after a) text
             (source_lang_var a) (target_lang_var a) (status_var a)
             (char_count_var a) (typing_job a) (workers a) (dispatched a) in
  _on_input_change a.

(** A burst of key releases, oldest first. *)
Definition type_burst (fuel : nat) (events : list (Z * str)) (a : app) : app :=
  fold_left (fun a '(t, text) => key_release fuel t text a) events a.

End Languages.

(** *** Background workers: [_translate_worker] and [_speak_worker]

    A worker runs on its own thread; the only thing it shares with the UI
    thread is the queue of [root.after(0, ...)] callbacks and, through the
    closures it queues, the local variables [exc] and [result] of its own
    call.  The model therefore keeps those two variables as cells, runs the
    worker one statement at a time, and lets the UI thread take its turns in
    between.

    Python unbinds the target of [except ... as exc] when control leaves the
    except clause, also when it leaves by [return] (Language Reference, "The
    try statement"); a closure over [exc] that runs afterwards finds the
    variable unbound and raises [NameError]. *)

(** The value of [translator.translate(...)]: the attributes the UI reads. *)
Record translated := mk_translated {
  tr_text : str;
  tr_src : string;
  tr_dest : string
}.

(** An exception value, by its message ([str(exc)]). *)
Definition exn : Type := string.

(** How the blocking call of a worker ends.  [Raises] is an exception derived
    from [Exception], the kind the workers' [except] clauses catch. *)
Inductive outcome : Type :=
| Returns (value : translated)
| Raises (exc : exn).

Inductive worker : Type :=
| translate_worker
| speak_worker.

(** The closures the workers pass to [root.after(0, ...)]. *)
Inductive lambda : Type :=
| lam_handle_error        (* lambda: self._handle_error(exc) *)
| lam_apply_translation   (* lambda: self._apply_translation(result) *)
| lam_tts_failed          (* lambda: self.set_status(f"TTS failed: {exc}") *)
| lam_done_speaking.      (* lambda: self.set_status("Done speaking.") *)

(** Where the worker stands: before the [try], inside the [except] clause
    before its [after] call, on the [return] that leaves the clause, on the
    statement after the [try], or returned. *)
Inductive position : Type :=
| at_try
| at_except_after
| at_except_return
| at_else_after
| returned.

(** The local variables of the worker call that the closures refer to. *)
Record frame := mk_frame {
  f_exc : option exn;
  f_result : option translated
}.

(** What the UI thread is seen to do when it runs a queued closure. *)
Inductive ui_event : Type :=
| called_handle_error (exc : exn)
| called_apply_translation (result : translated)
| called_set_status (message : string)
| raised_NameError (name : string).

Record machine := mk_machine {
  m_worker : worker;
  m_outcome : outcome;
  m_position : position;
  m_frame : frame;
  m_queue : list lambda;
  m_log : list ui_event
}.

(** A worker thread about to enter its [try]. *)
Definition spawn (w : worker) (o : outcome) : machine :=
  mk_machine w o at_try (mk_frame None None) [] [].

Definition failure_lambda (w : worker) : lambda :=
  match w with
  | translate_worker => lam_handle_error
  | speak_worker => lam_tts_failed
  end.

Definition success_lambda (w : worker) : lambda :=
  match w with
  | translate_worker => lam_apply_translation
  | speak_worker => lam_done_speaking
  end.

(** One statement of the worker. *)
Definition worker_step (m : machine) : machine :=
  match m_position m with
  | at_try =>
      match m_outcome m with
      | Returns r =>
          let f := match m_worker m with
                   | translate_worker => mk_frame (f_exc (m_frame m)) (Some r)
                   | speak_worker => m_frame m
                   end in
          mk_machine (m_worker m) (m_outcome m) at_else_after f
            (m_queue m) (m_log m)
      | Raises e =>
          mk_machine (m_worker m) (m_outcome m) at_except_after
            (mk_frame (Some e) (f_result (m_frame m))) (m_queue m) (m_log m)
      end
  | at_except_after =>
      mk_machine (m_worker m) (m_outcome m) at_except_return (m_frame m)
        (m_queue m ++ [failure_lambda (m_worker m)]) (m_log m)
  | at_except_return =>
      mk_machine (m_worker m) (m_outcome m) returned
        (mk_frame None (f_result (m_frame m))) (m_queue m) (m_log m)
  | at_else_after =>
      mk_machine (m_worker m) (m_outcome m) returned (m_frame m)
        (m_queue m ++ [success_lambda (m_worker m)]) (m_log m)
  | returned => m
  end.

(** Running a closure: its free variable is looked up when it runs. *)
Definition run_lambda (l : lambda) (f : frame) : ui_event :=
  match l with
  | lam_handle_error =>
      match f_exc f with
      | Some e => called_handle_error e
      | None => raised_NameError "exc"
      end
  | lam_apply_translation =>
      match f_result f with
      | Some r => called_apply_translation r
      | None => raised_NameError "result"
      end
  | lam_tts_failed =>
      match f_exc f with
      | Some e => called_set_status ("TTS failed: " +:+ e)
      | None => raised_NameError "exc"
      end
  | lam_done_speaking => called_set_status "Done speaking."
  end.

(** One turn of the UI thread: the oldest queued closure, if any, is run. *)
Definition ui_step (m : machine) : machine :=
  match m_queue m with
  | [] => m
  | l :: rest =>
      mk_machine (m_worker m) (m_outcome m) (m_position m) (m_frame m) rest
        (m_log m ++ [run_lambda l (m_frame m)])
  end.

(** Whose turn it is. *)
Inductive turn : Type :=
| worker_turn
| ui_turn.

Definition run (schedule : list turn) (m : machine) : machine :=
  fold_left (fun m t => match t with
                        | worker_turn => worker_step m
                        | ui_turn => ui_step m
                        end) schedule m.

(** *** Notions and example states the properties are stated with *)

(** Ten recorded translations, numbered by their source text. *)
Definition ten_calls : list (str * str * str * str) :=
  map (fun n : N => ([n], [n], [101; 110], [101; 115])%N)
    [1; 2; 3; 4; 5; 6; 7; 8; 9; 10]%N.

(** Every state a worker whose call raises [e] can be in, under any
    interleaving with the UI thread. *)
Definition failing_states (w : worker) (e : exn) : list machine :=
  let bound := mk_frame (Some e) None in
  let unbound := mk_frame None None in
  let delivered := run_lambda (failure_lambda w) bound in
  [ mk_machine w (Raises e) at_try unbound [] [];
    mk_machine w (Raises e) at_except_after bound [] [];
    mk_machine w (Raises e) at_except_return bound [failure_lambda w] [];
    mk_machine w (Raises e) at_except_return bound [] [delivered];
    mk_machine w (Raises e) returned unbound [failure_lambda w] [];
    mk_machine w (Raises e) returned unbound [] [delivered];
    mk_machine w (Raises e) returned unbound [] [raised_NameError "exc"] ].

(** The state in which a key release finds the application during a burst:
    nothing is pending, or only the auto-translate timer the stored handle
    names, and that timer is not yet due. *)
Definition quiet_at (t : Z) (a : app) : Prop :=
  now a <= t /\
  (timers a = []
   \/ exists id due, timers a = [mk_timer id due cb_translate]
                     /\ typing_job a = Some id /\ t < due).

(** A burst after a first key release at [prev]: every later key release
    comes sooner than the quiet period after the one before it. *)
Fixpoint burst (prev : Z) (events : list (Z * str)) : Prop :=
  match events with
  | [] => True
  | (t, _) :: rest => prev <= t < prev + auto_translate_delay /\ burst t rest
  end.

(** The time of the last key release of a burst that starts at [t1]. *)
Definition last_time (t1 : Z) (rest : list (Z * str)) : Z :=
  List.last (map fst rest) t1.

(** The application as [__init__] leaves it, with "hi" typed so far. *)
Definition idle_app : app :=
  mk_app 0 [] 0 [104; 105; 10]%N "Auto Detect" "Spanish"
    "Ready. Press Translate or Ctrl+Enter." (0, 0)%nat None [] [].

Definition two_languages : gmap string string :=
  {[ "English" := "en"; "Spanish" := "es" ]}.

(** The key releases that follow a first one at time 100: 200 and then 600
    later. *)
Definition three_keys : list (Z * str) :=
  [(300, [104; 111; 108; 10]%N); (900, [104; 111; 108; 97; 10]%N)].

(** The application with "hi" in the input box and an auto-translate timer
    pending since the key release at time 100. *)
Definition typing_app : app :=
  mk_app 100 [mk_timer 0 750 cb_translate] 1 [104; 105; 10]%N
    "Auto Detect" "Spanish" "Ready." (1, 2)%nat (Some 0%nat) [] [].

(** *** Further actions of the application *)

(** [swap_languages] *)
Definition swap_languages (a : app) : app :=
  if String.eqb (source_lang_var a) "Auto Detect"
  then set_status "Cannot swap while source is Auto Detect." a
  else
    let src := source_lang_var a in
    let tgt := target_lang_var a in
    mk_app (now a) (timers a) (next_after a) (source_text a) tgt src
      (status_var a) (char_count_var a) (typing_job a) (workers a)
      (dispatched a).

(** *** The rest of the window *)

(** The attributes of the application besides those of [app], and what it
    reaches of its surroundings: the output box (its text, without the final
    newline Tk keeps, and its state), the clipboard, the speech engine's
    rate and volume, the speech threads started so far with their text, the
    theme in use and the colour mode applied, and the message boxes shown so
    far (title and text). *)
Record window := mk_window {
  core : app;
  source_last_selection : string;
  target_last_selection : string;
  output_text : str;
  output_state : string;
  last_translation : str;
  last_detected : string;
  history : deque entry;
  clipboard : str;
  speed_var : Z;
  volume_var : Q;
  tts_rate : Z;
  tts_volume : Q;
  speakers : list str;
  theme_index : Z;
  theme_name : string;
  palette : string;
  dialogs : list (string * string)
}.

Definition with_core (v : app) (w : window) : window :=
  mk_window v (source_last_selection w) (target_last_selection w) (output_text
    w) (output_state w) (last_translation w) (last_detected w) (history w)
    (clipboard w) (speed_var w) (volume_var w) (tts_rate w) (tts_volume w)
    (speakers w) (theme_index w) (theme_name w) (palette w) (dialogs w).

Definition with_source_last_selection (v : string) (w : window) : window :=
  mk_window (core w) v (target_last_selection w) (output_text w) (output_state
    w) (last_translation w) (last_detected w) (history w) (clipboard w)
    (speed_var w) (volume_var w) (tts_rate w) (tts_volume w) (speakers w)
    (theme_index w) (theme_name w) (palette w) (dialogs w).

Definition with_target_last_selection (v : string) (w : window) : window :=
  mk_window (core w) (source_last_selection w) v (output_text w) (output_state
    w) (last_translation w) (last_detected w) (history w) (clipboard w)
    (speed_var w) (volume_var w) (tts_rate w) (tts_volume w) (speakers w)
    (theme_index w) (theme_name w) (palette w) (dialogs w).

Definition with_output_text (v : str) (w : window) : window :=
  mk_window (core w) (source_last_selection w) (target_last_selection w) v
    (output_state w) (last_translation w) (last_detected w) (history w)
    (clipboard w) (speed_var w) (volume_var w) (tts_rate w) (tts_volume w)
    (speakers w) (theme_index w) (theme_name w) (palette w) (dialogs w).

Definition with_output_state (v : string) (w : window) : window :=
  mk_window (core w) (source_last_selection w) (target_last_selection w)
    (output_text w) v (last_translation w) (last_detected w) (history w)
    (clipboard w) (speed_var w) (volume_var w) (tts_rate w) (tts_volume w)
    (speakers w) (theme_index w) (theme_name w) (palette w) (dialogs w).

Definition with_last_translation (v : str) (w : window) : window :=
  mk_window (core w) (source_last_selection w) (target_last_selection w)
    (output_text w) (output_state w) v (last_detected w) (history w)
    (clipboard w) (speed_var w) (volume_var w) (tts_rate w) (tts_volume w)
    (speakers w) (theme_index w) (theme_name w) (palette w) (dialogs w).

Definition with_last_detected (v : string) (w : window) : window :=
  mk_window (core w) (source_last_selection w) (target_last_selection w)
    (output_text w) (output_state w) (last_translation w) v (history w)
    (clipboard w) (speed_var w) (volume_var w) (tts_rate w) (tts_volume w)
    (speakers w) (theme_index w) (theme_name w) (palette w) (dialogs w).

Definition with_history (v : deque entry) (w : window) : window :=
  mk_window (core w) (source_last_selection w) (target_last_selection w)
    (output_text w) (output_state w) (last_translation w) (last_detected w) v
    (clipboard w) (speed_var w) (volume_var w) (tts_rate w) (tts_volume w)
    (speakers w) (theme_index w) (theme_name w) (palette w) (dialogs w).

Definition with_clipboard (v : str) (w : window) : window :=
  mk_window (core w) (source_last_selection w) (target_last_selection w)
    (output_text w) (output_state w) (last_translation w) (last_detected w)
    (history w) v (speed_var w) (volume_var w) (tts_rate w) (tts_volume w)
    (speakers w) (theme_index w) (theme_name w) (palette w) (dialogs w).

Definition with_speed_var (v : Z) (w : window) : window :=
  mk_window (core w) (source_last_selection w) (target_last_selection w)
    (output_text w) (output_state w) (last_translation w) (last_detected w)
    (history w) (clipboard w) v (volume_var w) (tts_rate w) (tts_volume w)
    (speakers w) (theme_index w) (theme_name w) (palette w) (dialogs w).

Definition with_volume_var (v : Q) (w : window) : window :=
  mk_window (core w) (source_last_selection w) (target_last_selection w)
    (output_text w) (output_state w) (last_translation w) (last_detected w)
    (history w) (clipboard w) (speed_var w) v (tts_rate w) (tts_volume w)
    (speakers w) (theme_index w) (theme_name w) (palette w) (dialogs w).

Definition with_tts_rate (v : Z) (w : window) : window :=
  mk_window (core w) (source_last_selection w) (target_last_selection w)
    (output_text w) (output_state w) (last_translation w) (last_detected w)
    (history w) (clipboard w) (speed_var w) (volume_var w) v (tts_volume w)
    (speakers w) (theme_index w) (theme_name w) (palette w) (dialogs w).

Definition with_tts_volume (v : Q) (w : window) : window :=
  mk_window (core w) (source_last_selection w) (target_last_selection w)
    (output_text w) (output_state w) (last_translation w) (last_detected w)
    (history w) (clipboard w) (speed_var w) (volume_var w) (tts_rate w) v
    (speakers w) (theme_index w) (theme_name w) (palette w) (dialogs w).

Definition with_speakers (v : list str) (w : window) : window :=
  mk_window (core w) (source_last_selection w) (target_last_selection w)
    (output_text w) (output_state w) (last_translation w) (last_detected w)
    (history w) (clipboard w) (speed_var w) (volume_var w) (tts_rate w)
    (tts_volume w) v (theme_index w) (theme_name w) (palette w) (dialogs w).

Definition with_theme_index (v : Z) (w : window) : window :=
  mk_window (core w) (source_last_selection w) (target_last_selection w)
    (output_text w) (output_state w) (last_translation w) (last_detected w)
    (history w) (clipboard w) (speed_var w) (volume_var w) (tts_rate w)
    (tts_volume w) (speakers w) v (theme_name w) (palette w) (dialogs w).

Definition with_theme_name (v : string) (w : window) : window :=
  mk_window (core w) (source_last_selection w) (target_last_selection w)
    (output_text w) (output_state w) (last_translation w) (last_detected w)
    (history w) (clipboard w) (speed_var w) (volume_var w) (tts_rate w)
    (tts_volume w) (speakers w) (theme_index w) v (palette w) (dialogs w).

Definition with_palette (v : string) (w : window) : window :=
  mk_window (core w) (source_last_selection w) (target_last_selection w)
    (output_text w) (output_state w) (last_translation w) (last_detected w)
    (history w) (clipboard w) (speed_var w) (volume_var w) (tts_rate w)
    (tts_volume w) (speakers w) (theme_index w) (theme_name w) v (dialogs w).

Definition with_dialogs (v : list (string * string)) (w : window) : window :=
  mk_window (core w) (source_last_selection w) (target_last_selection w)
    (output_text w) (output_state w) (last_translation w) (last_detected w)
    (history w) (clipboard w) (speed_var w) (volume_var w) (tts_rate w)
    (tts_volume w) (speakers w) (theme_index w) (theme_name w) (palette w) v.

(** An application method that only uses what [app] holds. *)
Definition on_core (f : app -> app) (w : window) : window :=
  with_core (f (core w)) w.

(** Text held in a Coq string, as a Python [str].  The strings this is used
    on (language names and codes, fixed messages) are ASCII. *)
Definition str_of_string (s : string) : str :=
  map (fun c => N.of_nat (Ascii.nat_of_ascii c)) (String.list_ascii_of_string s).

(** [self.dropdown_headers] *)
Definition dropdown_headers : list string :=
  ["— Popular —"; "— All Languages —"].

Definition is_header (value : string) : bool :=
  existsb (String.eqb value) dropdown_headers.

(** [POPULAR_LANGUAGES] *)
Definition POPULAR_LANGUAGES : list string :=
  ["English"; "Hindi"; "Spanish"; "French"; "German"].

(** [THEME_CYCLE] *)
Definition THEME_CYCLE : list string := ["darkly"; "flatly"].

(** [s.title()] on ASCII text: the first letter of every run of letters in
    upper case, the other letters in lower case. *)
Fixpoint title_from (previous_is_cased : bool) (s : list Ascii.ascii) : list Ascii.ascii :=
  match s with
  | [] => []
  | c :: rest =>
      let n := Ascii.nat_of_ascii c in
      if ((97 <=? n) && (n <=? 122))%nat then
        (if previous_is_cased then c else Ascii.ascii_of_nat (n - 32))
        :: title_from true rest
      else if ((65 <=? n) && (n <=? 90))%nat then
        (if previous_is_cased then Ascii.ascii_of_nat (n + 32) else c)
        :: title_from true rest
      else c :: title_from false rest
  end.

Definition title (s : string) : string :=
  String.string_of_list_ascii (title_from false (String.list_ascii_of_string s)).

(** The combobox variable a selection handler works on. *)
Inductive var_ref : Type :=
| source_var
| target_var.

Definition get_var (var : var_ref) (w : window) : string :=
  match var with
  | source_var => source_lang_var (core w)
  | target_var => target_lang_var (core w)
  end.

Definition set_var (var : var_ref) (value : string) (w : window) : window :=
  let a := core w in
  match var with
  | source_var =>
      with_core (mk_app (now a) (timers a) (next_after a) (source_text a)
                   value (target_lang_var a) (status_var a) (char_count_var a)
                   (typing_job a) (workers a) (dispatched a)) w
  | target_var =>
      with_core (mk_app (now a) (timers a) (next_after a) (source_text a)
                   (source_lang_var a) value (status_var a) (char_count_var a)
                   (typing_job a) (workers a) (dispatched a)) w
  end.

(** [_handle_combo_selection] *)
Definition _handle_combo_selection (var : var_ref) (allow_auto : bool)
    (w : window) : window :=
  let value := get_var var w in
  if is_header value then
    let previous := if allow_auto then source_last_selection w
                    else target_last_selection w in
    set_var var previous w
  else if negb allow_auto && String.eqb value "Auto Detect" then
    set_var var (target_last_selection w) w
  else if allow_auto then with_source_last_selection value w
  else with_target_last_selection value w.

(** The user picks [value] in the source or the target combobox: Tk stores
    it in the combobox variable and raises <<ComboboxSelected>>, to which
    [_build_ui] has bound [_handle_combo_selection]. *)
Definition pick_source (value : string) (w : window) : window :=
  _handle_combo_selection source_var true (set_var source_var value w).

Definition pick_target (value : string) (w : window) : window :=
  _handle_combo_selection target_var false (set_var target_var value w).

(** Replacing the text of the input box: the counterpart of
    [source_text.delete("1.0", END)] leaves the single newline Tk keeps. *)
Definition set_source_text (text : str) (a : app) : app :=
  mk_app (now a) (timers a) (next_after a) text (source_lang_var a)
    (target_lang_var a) (status_var a) (char_count_var a) (typing_job a)
    (workers a) (dispatched a).

(** [clear_input_only] *)
Definition clear_input_only (w : window) : window :=
  on_core (fun a =>
             set_status "Cleared input."
               (_update_char_count (set_source_text [10%N] a))) w.

(** [clear_text] *)
Definition clear_text (w : window) : window :=
  let w := on_core (set_source_text [10%N]) w in
  let w := with_output_state "normal" w in
  let w := with_output_text [] w in
  let w := with_output_state "disabled" w in
  let w := with_last_translation [] w in
  let w := with_last_detected "" w in
  let w := on_core _update_char_count w in
  on_core (set_status "Cleared input and output.") w.

(** [copy_translation] *)
Definition copy_translation (w : window) : window :=
  let text := strip (last_translation w) in
  match text with
  | [] => on_core (set_status "Nothing to copy yet.") w
  | _ =>
      let w := with_clipboard text w in
      on_core (set_status "Copied translation to clipboard.") w
  end.

(** [_apply_tts_preferences] *)
Definition _apply_tts_preferences (w : window) : window :=
  let w := with_tts_rate (speed_var w) w in
  with_tts_volume (volume_var w / 100)%Q w.

(** [speak_translation] *)
Definition speak_translation (w : window) : window :=
  let text := strip (last_translation w) in
  match text with
  | [] => on_core (set_status "Nothing to speak. Translate first.") w
  | _ =>
      let w := _apply_tts_preferences w in
      let w := on_core (set_status "Speaking…") w in
      with_speakers (speakers w ++ [text]) w
  end.

(** [_handle_error] *)
Definition _handle_error (exc : exn) (w : window) : window :=
  let w := on_core (set_status "Translation failed. Check network/API limits.") w in
  with_dialogs (dialogs w ++ [("Translation Error", exc)]) w.

(** [toggle_theme] with [_apply_palette] *)
Definition toggle_theme (w : window) : window :=
  let index := (theme_index w + 1) mod Z.of_nat (length THEME_CYCLE) in
  let w := with_theme_index index w in
  let name := nth (Z.to_nat index) THEME_CYCLE "" in
  let w := with_theme_name name w in
  let w := with_palette (if index =? 0 then "dark" else "light") w in
  on_core (set_status ("Theme set to " +:+ name)) w.

Section Tables.

(** [LANGUAGE_MAP] and [CODE_TO_NAME], both built from the table of the
    translation library. *)
Variable LANGUAGE_MAP : gmap string string.
Variable CODE_TO_NAME : gmap string string.

(** [LANGUAGE_NAMES = sorted(LANGUAGE_MAP.keys())] *)
Definition LANGUAGE_NAMES : list string :=
  merge_sort String.le (map fst (map_to_list LANGUAGE_MAP)).

(** [_build_language_values] *)
Definition _build_language_values : list string :=
  let popular :=
    List.filter (fun name => bool_decide (is_Some (LANGUAGE_MAP !! name)))
      (map title POPULAR_LANGUAGES) in
  let others :=
    List.filter (fun name => negb (existsb (String.eqb name) popular))
      LANGUAGE_NAMES in
  ["— Popular —"] ++ popular ++ ["— All Languages —"] ++ others.

(** The values of the two comboboxes, as [_build_ui] sets them. *)
Definition source_values : list string :=
  "Auto Detect" :: _build_language_values.

Definition target_values : list string := _build_language_values.

(** [CODE_TO_NAME.get(code, code)] *)
Definition name_of_code (code : string) : string :=
  default code (CODE_TO_NAME !! code).

(** [_apply_translation] *)
Definition _apply_translation (result : translated) (w : window) : window :=
  let w := with_output_state "normal" w in
  let w := with_output_text [] w in
  let translation := strip (tr_text result) in
  let w := with_last_translation translation w in
  let detected := name_of_code (tr_src result) in
  let w := with_last_detected detected w in
  let w := with_output_text (output_text w ++ translation) w in
  let w :=
    if String.eqb detected "" then w
    else with_output_text
           (output_text w
            ++ [10; 10]%N ++ str_of_string "[Detected language: "
            ++ str_of_string detected ++ str_of_string "]") w in
  let w := with_output_state "disabled" w in
  let target := name_of_code (tr_dest result) in
  let w := on_core (set_status ("Translated " +:+ detected +:+ " → "
                                +:+ target +:+ ".")) w in
  with_history
    (_record_history (strip (source_text (core w))) translation
       (str_of_string detected) (str_of_string target) (history w)) w.

(** What the user does with the two comboboxes and the Swap button. *)
Inductive selection : Type :=
| sel_source (value : string)
| sel_target (value : string)
| sel_swap.

(** The comboboxes only offer their values. *)
Definition offered (sel : selection) : Prop :=
  match sel with
  | sel_source value => value ∈ source_values
  | sel_target value => value ∈ target_values
  | sel_swap => True
  end.

Definition select (sel : selection) (w : window) : window :=
  match sel with
  | sel_source value => pick_source value w
  | sel_target value => pick_target value w
  | sel_swap => on_core swap_languages w
  end.

Definition select_all (sels : list selection) (w : window) : window :=
  fold_left (fun w sel => select sel w) sels w.

End Tables.

(** The window as [__init__] leaves it, given the state of the clipboard
    and of the speech engine.  The timers of the particle layer (its
    [reseed] after 150 ms and its animation) belong to [ParticleCanvas] and
    are not among the [timers] of the application. *)
Definition initial_window (clip : str) (rate : Z) (volume : Q) : window :=
  mk_window
    (mk_app 0 [] 0 [10%N] "Auto Detect" "English"
       "Ready. Press Translate ✨ or Ctrl+Enter." (0, 0)%nat None [] [])
    "Auto Detect" "English" [] "disabled" [] "" initial_history clip
    170 80 rate volume [] 0 "darkly" "dark" [].

(** What the user and the clock do to the application: a key release that
    leaves [text] in the input box at time [t], the Translate button (or
    Ctrl+Enter), the Swap button, and the event loop running on its own
    until time [t]. *)
Inductive action : Type :=
| act_key (t : Z) (text : str)
| act_translate
| act_swap
| act_idle (t : Z).

(** An action that is not a direct call of [translate]. *)
Definition is_typing (act : action) : bool :=
  match act with
  | act_translate => false
  | _ => true
  end.

Section Actions.

Variable LANGUAGE_MAP : gmap string string.

Definition perform (fuel : nat) (act : action) (a : app) : app :=
  match act with
  | act_key t text => key_release LANGUAGE_MAP fuel t text a
  | act_translate => translate LANGUAGE_MAP a
  | act_swap => swap_languages a
  | act_idle t => run_until LANGUAGE_MAP fuel t a
  end.

Definition perform_all (fuel : nat) (acts : list action) (a : app) : app :=
  fold_left (fun a act => perform fuel act a) acts a.

(** The arguments a translation thread may be started with: text that is
    not blank and has no white space around it, a source code that is "auto"
    or a code of the table, and a target code of the table. *)
Definition worker_args_ok (args : str * string * string) : Prop :=
  let '(text, src_code, tgt_code) := args in
  text <> [] /\ strip text = text /\
  (src_code = "auto" \/ exists name, LANGUAGE_MAP !! name = Some src_code) /\
  (exists name, LANGUAGE_MAP !! name = Some tgt_code).

End Actions.

(** At most one timer is pending; it is an auto-translate timer and the
    stored handle names it. *)
Definition settled (a : app) : Prop :=
  timers a = []
  \/ exists id due, timers a = [mk_timer id due cb_translate]
                    /\ typing_job a = Some id.

(** What the UI thread does with the value a worker's call returned. *)
Definition success_event (w : worker) (r : translated) : ui_event :=
  match w with
  | translate_worker => called_apply_translation r
  | speak_worker => called_set_status "Done speaking."
  end.

(** The states of a worker whose call returns [r], in the order it passes
    through them: about to call, about to queue the success closure,
    returned with the closure queued, returned with the closure run. *)
Definition success_state (w : worker) (r : translated) (i : nat) : machine :=
  let f := match w with
           | translate_worker => mk_frame None (Some r)
           | speak_worker => mk_frame None None
           end in
  match i with
  | 0%nat => spawn w (Returns r)
  | 1%nat => mk_machine w (Returns r) at_else_after f [] []
  | 2%nat => mk_machine w (Returns r) returned f [success_lambda w] []
  | _ => mk_machine w (Returns r) returned f [] [success_event w r]
  end.

(** The names in the two comboboxes are names [translate] can look up:
    neither is a header, the target is a name of [LANGUAGE_MAP], the source
    is one or "Auto Detect"; the same holds for the two remembered
    selections. *)
Definition selectable (LANGUAGE_MAP : gmap string string) (w : window) : Prop :=
  let known name := is_header name = false /\ is_Some (LANGUAGE_MAP !! name) in
  let known_or_auto name :=
    is_header name = false /\
    (name = "Auto Detect" \/ is_Some (LANGUAGE_MAP !! name)) in
  known_or_auto (source_lang_var (core w)) /\
  (known (target_lang_var (core w))
   /\ target_lang_var (core w) <> "Auto Detect") /\
  known_or_auto (source_last_selection w) /\
  (known (target_last_selection w)
   /\ target_last_selection w <> "Auto Detect").

(** How many turns of a schedule are the worker's. *)
Fixpoint worker_turns (schedule : list turn) : nat :=
  match schedule with
  | [] => O
  | worker_turn :: rest => S (worker_turns rest)
  | ui_turn :: rest => worker_turns rest
  end.

(** The application with English to Spanish selected and "hi" typed. *)
Definition english_app : app :=
  mk_app 0 [] 0 [104; 105; 10]%N "English" "Spanish" "Ready." (1, 2)%nat
    None [] [].

(** A window in which "hola" has been typed with Spanish to English
    selected. *)
Definition hola_window : window :=
  with_core (mk_app 0 [] 0 [104; 111; 108; 97; 10]%N "Spanish" "English"
               "Ready." (1, 4)%nat None [] [])
    (initial_window [] 200 1).

End TranslatorApp.

(** * Properties of the particle field *)

Module ParticleCanvasProofs.
Import ParticleCanvas.

(** ** The random source and the environment *)

Lemma randint_range (a b : Z) (e : env) :
  a <= b -> a <= fst (randint a b e) <= b.
Proof.
  intros Hab. unfold randint. cbn.
  pose proof (Z.mod_pos_bound (hd 0 (int_draws (rng e))) (b - a + 1)).
  lia.
Qed.

Lemma same_geometry_refl (e : env) : same_geometry e e.
Proof. split; reflexivity. Qed.

Lemma same_geometry_trans (e1 e2 e3 : env) :
  same_geometry e1 e2 -> same_geometry e2 e3 -> same_geometry e1 e3.
Proof. unfold same_geometry. intros [? ?] [? ?]. split; congruence. Qed.

Lemma draw_geometry (p : particle) (e : env) :
  same_geometry e (snd (_draw_particle p e)).
Proof. split; reflexivity. Qed.

(** ** Loops over the particle list *)

(** A relation that the loop body establishes between a particle and its
    updated version, whatever the environment, holds position by position
    between the lists before and after the loop. *)
Lemma for_each_Forall2 (body : particle -> Tk particle)
    (R : particle -> particle -> Prop) (I : env -> Prop) :
  (forall p e, I e -> R p (fst (body p e)) /\ I (snd (body p e))) ->
  forall ps e, I e ->
    Forall2 R ps (fst (for_each body ps e)) /\ I (snd (for_each body ps e)).
Proof.
  intros Hbody ps. induction ps as [|p rest IH]; intros e He.
  - cbn. split; [constructor | assumption].
  - cbn. unfold St.bind.
    destruct (Hbody p e He) as [Hp He1].
    destruct (body p e) as [p' e1]. cbn in Hp, He1.
    destruct (IH e1 He1) as [Hrest He2].
    destruct (for_each body rest e1) as [rest' e2]. cbn in Hrest, He2.
    cbn. split; [constructor; assumption | assumption].
Qed.

Lemma Forall2_lookup_left {A B : Type} (R : A -> B -> Prop)
    (l : list A) (k : list B) (i : nat) (a : A) :
  Forall2 R l k -> l !! i = Some a -> exists b, k !! i = Some b /\ R a b.
Proof.
  intros H. revert i. induction H as [|x y l k Hxy _ IH]; intros i Hi.
  - destruct i; discriminate.
  - destruct i as [|i]; cbn in Hi.
    + injection Hi as <-. exists y. split; [reflexivity | assumption].
    + apply IH. assumption.
Qed.

(** ** One particle during a tick *)

Lemma Qmult_minus_1 (q : Q) : (q * (-1 # 1))%Q = (- q)%Q.
Proof.
  destruct q as [n d]. unfold Qmult, Qopp. cbn.
  f_equal; [lia | apply Pos.mul_1_r].
Qed.

(** What the loop body of [_animate] does to one particle. *)
Lemma animate_particle_fields (width height : Z) (p : particle) (e : env) :
  0 <= width ->
  let p' := fst (animate_particle width height p e) in
  p_dx p' = (if bounces width p then - p_dx p else p_dx p)%Q /\
  p_dy p' = p_dy p /\
  p_size p' = p_size p /\
  p_color p' = p_color p /\
  p_id p' = p_id p /\
  (if wraps height p
   then p_y p' = inject_Z (- p_size p) /\
        exists x : Z, 0 <= x <= width /\ p_x p' = inject_Z x
   else p_y p' = (p_y p + p_dy p)%Q /\ p_x p' = (p_x p + p_dx p)%Q).
Proof.
  intros Hw. unfold animate_particle, bounces, wraps. cbn.
  destruct (Qle_bool (p_x p + p_dx p) 0
            || Qle_bool (inject_Z width) (p_x p + p_dx p)); cbn;
    destruct (Qle_bool (inject_Z height) (p_y p + p_dy p)); cbn;
    repeat split; try reflexivity; try apply Qmult_minus_1;
    try (eexists; split; [apply (randint_range 0 width e Hw) | reflexivity]).
Qed.

Lemma animate_particle_geometry (width height : Z) (p : particle) (e : env) :
  same_geometry e (snd (animate_particle width height p e)).
Proof.
  unfold animate_particle. cbn.
  destruct (Qle_bool _ _ || Qle_bool _ _);
    destruct (Qle_bool (inject_Z height) _); split; reflexivity.
Qed.

(** ** A whole tick *)

Lemma tick_width_pos (self : state) : 1 <= tick_width self.
Proof.
  unfold tick_width, width_or_1. cbn.
  destruct (N.eqb_spec (winfo_width (tk self)) 0); lia.
Qed.

Lemma tick_height_pos (self : state) : 1 <= tick_height self.
Proof.
  unfold tick_height, height_or_1. cbn.
  destruct (N.eqb_spec (winfo_height (tk self)) 0); lia.
Qed.

(** A tick relates the particle lists position by position, through the
    loop body run at the tick's width and height. *)
Lemma animate_Forall2 (R : particle -> particle -> Prop) (self : state) :
  (forall p e,
     R p (fst (animate_particle (tick_width self) (tick_height self) p e))) ->
  Forall2 R (particles self) (particles (_animate self)).
Proof.
  intros HR. unfold _animate, St.bind. cbn.
  pose proof (for_each_Forall2
                (animate_particle (tick_width self) (tick_height self))
                R (fun _ => True)) as H.
  destruct (H (fun p e _ => conj (HR p e) I) (particles self) (tk self) I)
    as [HF _].
  unfold tick_width, tick_height, width_or_1, height_or_1 in HF. cbn in HF.
  destruct (for_each _ (particles self) (tk self)) as [ps e1].
  cbn. exact HF.
Qed.

Lemma animate_geometry (self : state) :
  same_geometry (tk self) (tk (_animate self)).
Proof.
  unfold _animate, St.bind. cbn.
  pose proof (for_each_Forall2
                (animate_particle (tick_width self) (tick_height self))
                (fun _ _ => True) (same_geometry (tk self))) as H.
  destruct (H (fun p e He =>
                 conj I (same_geometry_trans _ _ _ He
                           (animate_particle_geometry _ _ p e)))
              (particles self) (tk self) (same_geometry_refl _)) as [_ HG].
  unfold tick_width, tick_height, width_or_1, height_or_1 in HG. cbn in HG.
  destruct (for_each _ (particles self) (tk self)) as [ps e1].
  cbn. exact HG.
Qed.

Lemma animate_tick_width (self : state) :
  tick_width (_animate self) = tick_width self.
Proof.
  unfold tick_width, width_or_1. cbn.
  destruct (animate_geometry self) as [-> _]. reflexivity.
Qed.

Lemma animate_tick_height (self : state) :
  tick_height (_animate self) = tick_height self.
Proof.
  unfold tick_height, height_or_1. cbn.
  destruct (animate_geometry self) as [_ ->]. reflexivity.
Qed.

Lemma animate_tick_step (self : state) :
  Forall2 (tick_step (tick_width self) (tick_height self))
    (particles self) (particles (_animate self)).
Proof.
  apply animate_Forall2. intros p e.
  apply animate_particle_fields.
  pose proof (tick_width_pos self). lia.
Qed.

Lemma animate_lookup (self : state) (i : nat) (p : particle) :
  particles self !! i = Some p ->
  exists p', particles (_animate self) !! i = Some p' /\
             tick_step (tick_width self) (tick_height self) p p'.
Proof.
  intros Hi.
  exact (Forall2_lookup_left _ _ _ i p (animate_tick_step self) Hi).
Qed.

Lemma bounces_true (width : Z) (p : particle) :
  (p_x p + p_dx p <= 0 \/ inject_Z width <= p_x p + p_dx p)%Q ->
  bounces width p = true.
Proof.
  intros [H | H]; unfold bounces; apply Qle_bool_iff in H; rewrite H.
  - reflexivity.
  - apply orb_true_r.
Qed.

Lemma wraps_true (height : Z) (p : particle) :
  (inject_Z height <= p_y p + p_dy p)%Q -> wraps height p = true.
Proof. intros H. unfold wraps. apply Qle_bool_iff. exact H. Qed.

(** ** Bounce *)

(** C5.  During a tick, a particle whose advanced horizontal position is at
    or outside [0, width] has its horizontal velocity negated; in particular
    a particle at x = width with dx = 1 has dx = -1 after the tick.  The
    bounce touches nothing else: dy, size, colour and handle are unchanged
    and the new y is the one the vertical update gives. *)
Theorem tick_bounce (self : state) (i : nat) (p : particle) :
  particles self !! i = Some p ->
  exists p',
    particles (_animate self) !! i = Some p' /\
    ((p_x p + p_dx p <= 0 \/ inject_Z (tick_width self) <= p_x p + p_dx p)%Q ->
     p_dx p' = (- p_dx p)%Q) /\
    ((p_x p == inject_Z (tick_width self))%Q -> (p_dx p == 1)%Q ->
     (p_dx p' == - (1))%Q) /\
    p_dy p' = p_dy p /\
    p_size p' = p_size p /\
    p_color p' = p_color p /\
    p_id p' = p_id p /\
    p_y p' = (if wraps (tick_height self) p
              then inject_Z (- p_size p) else p_y p + p_dy p)%Q.
Proof.
  intros Hi.
  destruct (animate_lookup self i p Hi) as (p' & Hp' & Hdx & Hdy & Hs & Hc & Hid & Hy).
  exists p'. split; [exact Hp' |].
  assert (Hneg : (p_x p + p_dx p <= 0
                  \/ inject_Z (tick_width self) <= p_x p + p_dx p)%Q ->
                 p_dx p' = (- p_dx p)%Q).
  { intros Hb. rewrite Hdx, (bounces_true _ _ Hb). reflexivity. }
  repeat split; try assumption.
  - intros Hx Hd. rewrite Hneg.
    + rewrite Hd. reflexivity.
    + right. rewrite Hx, Hd. rewrite <- Qplus_0_r at 1.
      apply Qplus_le_r. discriminate.
  - destruct (wraps (tick_height self) p); tauto.
Qed.

Lemma tick_bounce_witness :
  exists p',
    particles (_animate edge_field) !! 0%nat = Some p' /\
    ((p_x edge_particle + p_dx edge_particle <= 0
      \/ inject_Z (tick_width edge_field)
         <= p_x edge_particle + p_dx edge_particle)%Q ->
     p_dx p' = (- p_dx edge_particle)%Q) /\
    ((p_x edge_particle == inject_Z (tick_width edge_field))%Q ->
     (p_dx edge_particle == 1)%Q -> (p_dx p' == - (1))%Q) /\
    p_dy p' = p_dy edge_particle /\
    p_size p' = p_size edge_particle /\
    p_color p' = p_color edge_particle /\
    p_id p' = p_id edge_particle /\
    p_y p' = (if wraps (tick_height edge_field) edge_particle
              then inject_Z (- p_size edge_particle)
              else p_y edge_particle + p_dy edge_particle)%Q.
Proof. apply (tick_bounce edge_field 0 edge_particle). reflexivity. Defined.

(** ** Wrap *)




(** ** Bounds on the positions *)

Lemma inject_Z_nonneg (z : Z) : 0 <= z -> (0 <= inject_Z z)%Q.
Proof. intros H. change 0%Q with (inject_Z 0). rewrite <- Zle_Qle. exact H. Qed.

Lemma viewport_tick_inv (width height : Z) (p : particle) :
  in_viewport width height p -> as_created p -> tick_inv width height p.
Proof. intros [Hx Hy] Hc. split; [exact Hc |]. split; [left; exact Hx | exact Hy]. Qed.

Lemma tick_inv_in_reach (width height : Z) (p : particle) :
  0 <= width -> tick_inv width height p -> in_reach width height p.
Proof.
  intros Hw ((Hdx & _ & _) & Hx & Hy).
  apply inject_Z_nonneg in Hw.
  split; [| exact Hy].
  unfold maxSpeed in *. destruct Hx as [Hx | [Hx | Hx]]; lra.
Qed.

Lemma tick_step_inv (width height : Z) (p p' : particle) :
  1 <= width -> 1 <= height ->
  tick_inv width height p -> tick_step width height p p' ->
  tick_inv width height p'.
Proof.
  intros Hw Hh (Hc & Hx & Hy) (Hdx & Hdy & Hs & _ & _ & Hpos).
  destruct Hc as (Hcdx & Hcdy & Hcs).
  assert (Hw0 : (0 <= inject_Z width)%Q) by (apply inject_Z_nonneg; lia).
  assert (Hh0 : (0 <= inject_Z height)%Q) by (apply inject_Z_nonneg; lia).
  assert (Hdx' : (p_dx p' == - p_dx p)%Q \/ (p_dx p' == p_dx p)%Q).
  { rewrite Hdx. destruct (bounces width p); [left | right]; reflexivity. }
  split.
  { unfold as_created. rewrite Hdy, Hs.
    repeat split; try tauto; try lia; destruct Hdx' as [-> | ->]; lra. }
  unfold wraps in Hpos.
  destruct (Qle_bool (inject_Z height) (p_y p + p_dy p)) eqn:Hwrap.
  - destruct Hpos as (Hy' & x & Hxr & Hx').
    rewrite Hx', Hy'. split.
    + left. change 0%Q with (inject_Z 0). rewrite <- !Zle_Qle. lia.
    + rewrite <- !Zle_Qle. unfold maxSize in *. lia.
  - destruct Hpos as (Hy' & Hx').
    assert (Hlt : (p_y p + p_dy p < inject_Z height)%Q).
    { apply Qnot_le_lt. intros H. apply Qle_bool_iff in H. congruence. }
    split; [| rewrite Hy'; lra].
    rewrite Hx', Hdx. unfold bounces.
    destruct (Qle_bool (p_x p + p_dx p) 0) eqn:Hlo;
      [apply Qle_bool_iff in Hlo
      | assert (Hlo' : (0 < p_x p + p_dx p)%Q)
          by (apply Qnot_le_lt; intros H; apply Qle_bool_iff in H; congruence)];
    (destruct (Qle_bool (inject_Z width) (p_x p + p_dx p)) eqn:Hhi;
      [apply Qle_bool_iff in Hhi
      | assert (Hhi' : (p_x p + p_dx p < inject_Z width)%Q)
          by (apply Qnot_le_lt; intros H; apply Qle_bool_iff in H; congruence)]);
    cbn [orb]; destruct Hx as [Hx | [Hx | Hx]]; lra.
Qed.

Lemma Forall2_Forall_step {A : Type} (P : A -> Prop) (R : A -> A -> Prop)
    (l k : list A) :
  (forall a b, P a -> R a b -> P b) -> Forall2 R l k -> Forall P l -> Forall P k.
Proof.
  intros Hstep H. induction H as [|a b l k Hab _ IH]; intros HP.
  - constructor.
  - inversion HP; subst. constructor; [eapply Hstep; eassumption | auto].
Qed.

Lemma ticks_geometry (n : nat) (self : state) :
  tick_width (ticks n self) = tick_width self /\
  tick_height (ticks n self) = tick_height self.
Proof.
  revert self. induction n as [|n IH]; intros self.
  - split; reflexivity.
  - change (ticks (S n) self) with (ticks n (_animate self)).
    destruct (IH (_animate self)) as [-> ->].
    split; [apply animate_tick_width | apply animate_tick_height].
Qed.

Lemma ticks_inv (n : nat) (self : state) :
  Forall (tick_inv (tick_width self) (tick_height self)) (particles self) ->
  Forall (tick_inv (tick_width self) (tick_height self))
    (particles (ticks n self)).
Proof.
  revert self. induction n as [|n IH]; intros self H.
  - exact H.
  - change (ticks (S n) self) with (ticks n (_animate self)).
    rewrite <- (animate_tick_width self), <- (animate_tick_height self).
    apply IH.
    rewrite (animate_tick_width self), (animate_tick_height self).
    eapply Forall2_Forall_step; [| apply animate_tick_step | exact H].
    intros a b. apply tick_step_inv; [apply tick_width_pos | apply tick_height_pos].
Qed.




(** [_create_particle] gives a particle at the origin with size and velocity
    in the ranges it draws from. *)
Lemma create_particle_as_created (e : env) :
  p_x (fst (_create_particle e)) = 0%Q /\
  p_y (fst (_create_particle e)) = 0%Q /\
  as_created (fst (_create_particle e)).
Proof.
  unfold _create_particle, St.bind, as_created, maxSpeed, maxSize. cbn.
  split; [reflexivity |]. split; [reflexivity |].
  pose proof (randint_range 6 50 e ltac:(lia)) as Hsize.
  unfold randint in Hsize. cbn in Hsize.
  split; [| split; [| exact Hsize]].
  - split; [apply Q.le_max_l |].
    apply Q.max_lub; [discriminate | apply Q.le_min_l].
  - split; [apply Q.le_max_l |].
    apply Q.max_lub; [discriminate | apply Q.le_min_l].
Qed.

Lemma create_particles_as_created (n : nat) (e : env) :
  Forall (fun p => p_x p = 0%Q /\ p_y p = 0%Q /\ as_created p)
    (fst (create_particles n e)).
Proof.
  revert e. induction n as [|n IH]; intros e; cbn [create_particles].
  - constructor.
  - unfold St.bind.
    pose proof (create_particle_as_created e) as Hp.
    destruct (_create_particle e) as [p e1]. cbn [fst] in Hp.
    specialize (IH e1). destruct (create_particles n e1) as [rest e2].
    cbn [fst St.ret] in *. constructor; assumption.
Qed.

(** The field [__init__] builds meets the starting condition of the bound
    above: every particle is inside the viewport, with size and velocity as
    created. *)
Lemma init_in_viewport (particle_count : Z) (e : env) :
  Forall (fun p =>
            in_viewport (tick_width (__init__ particle_count e))
              (tick_height (__init__ particle_count e)) p
            /\ as_created p)
    (particles (__init__ particle_count e)).
Proof.
  pose proof (tick_width_pos (__init__ particle_count e)) as Hw.
  pose proof (tick_height_pos (__init__ particle_count e)) as Hh.
  revert Hw Hh.
  generalize (tick_width (__init__ particle_count e)).
  generalize (tick_height (__init__ particle_count e)).
  intros h w Hw Hh.
  unfold __init__, St.bind.
  pose proof (create_particles_as_created (Z.to_nat particle_count) e) as H.
  destruct (create_particles (Z.to_nat particle_count) e) as [ps e1].
  cbn in *. eapply Forall_impl; [exact H |].
  intros p (Hx & Hy & Hc). split; [| exact Hc].
  unfold in_viewport, maxSize. rewrite Hx, Hy.
  change 0%Q with (inject_Z 0). rewrite <- !Zle_Qle. lia.
Qed.

(** ** Resizing *)



(** ** Changing the number of particles *)

Lemma pop_snoc (ps : list particle) (p : particle) :
  pop (ps ++ [p]) = Some (p, ps).
Proof. unfold pop. rewrite rev_app_distr. cbn. rewrite rev_involutive. reflexivity. Qed.

Lemma pop_cases (ps : list particle) :
  ps = [] \/ exists p ps', ps = ps' ++ [p] /\ pop ps = Some (p, ps').
Proof.
  destruct ps as [|a l] using rev_ind.
  - left. reflexivity.
  - right. exists a, l. split; [reflexivity | apply pop_snoc].
Qed.

Lemma place_new_particle_next_item (e : env) :
  next_item (snd (place_new_particle e)) = next_item e + 1.
Proof. reflexivity. Qed.

(** The growing loop appends exactly [count - current] new particles and
    stops because its test fails: more fuel changes nothing. *)
Lemma grow_spec (fuel : nat) :
  forall (current count : Z) (ps : list particle) (e : env),
    (Z.to_nat (count - current) <= fuel)%nat ->
    exists added,
      fst (grow fuel current count ps e) = (Z.max current count, ps ++ added) /\
      length added = Z.to_nat (count - current) /\
      next_item (snd (grow fuel current count ps e))
      = next_item e + Z.of_nat (length added).
Proof.
  induction fuel as [|fuel IH]; intros current count ps e Hfuel.
  - exists []. cbn. rewrite app_nil_r. repeat split; f_equal; lia.
  - cbn [grow]. destruct (Z.ltb_spec current count) as [Hlt | Hge].
    + unfold St.bind.
      pose proof (place_new_particle_next_item e) as Hnext.
      destruct (place_new_particle e) as [np e1]. cbn [snd] in Hnext.
      destruct (IH (current + 1) count (ps ++ [np]) e1 ltac:(lia))
        as (added & Hres & Hlen & Hitem).
      exists (np :: added).
      rewrite Hres, Hitem, Hnext, <- app_assoc. cbn [length app].
      repeat split; [f_equal; lia | lia | lia].
    + exists []. cbn. rewrite app_nil_r. repeat split; f_equal; lia.
Qed.

(** The shrinking loop removes exactly [current - count] particles from the
    end of the list and deletes their canvas items. *)
Lemma shrink_spec (fuel : nat) :
  forall (current count : Z) (ps : list particle) (e : env),
    current = Z.of_nat (length ps) -> 0 <= count ->
    (Z.to_nat (current - count) <= fuel)%nat ->
    fst (shrink fuel current count ps e)
    = (Z.min current count, take (Z.to_nat (Z.min current count)) ps) /\
    (forall k, items e !! k = None ->
               items (snd (shrink fuel current count ps e)) !! k = None) /\
    (forall p, p ∈ drop (Z.to_nat (Z.min current count)) ps ->
               items (snd (shrink fuel current count ps e)) !! p_id p = None) /\
    (Z.to_nat (current - count) = 0%nat ->
     snd (shrink fuel current count ps e) = e).
Proof.
  induction fuel as [|fuel IH]; intros current count ps e Hcur Hcount Hfuel.
  - cbn. replace (Z.to_nat (Z.min current count)) with (length ps) by lia.
    rewrite take_ge, drop_ge by lia.
    repeat split; try f_equal; try lia; try tauto.
    intros p Hp. inversion Hp.
  - cbn [shrink]. destruct (Z.ltb_spec count current) as [Hlt | Hge].
    + destruct (pop_cases ps) as [-> | (p & ps' & -> & ->)];
        [cbn in Hcur; lia |].
      rewrite length_app in Hcur. cbn in Hcur.
      unfold St.bind. cbn.
      set (e1 := set_items (delete (p_id p) (items e)) e).
      destruct (IH (current - 1) count ps' e1 ltac:(lia) Hcount ltac:(lia))
        as (Hres & Hkeep & Hgone & _).
      assert (Hn : (Z.to_nat (Z.min current count) <= length ps')%nat) by lia.
      rewrite Hres.
      replace (Z.min (current - 1) count) with (Z.min current count) in * by lia.
      rewrite take_app_le, drop_app_le by exact Hn.
      repeat split; try lia.
      * intros k Hk. apply Hkeep. cbn. rewrite lookup_delete_None. right. exact Hk.
      * intros q Hq. apply elem_of_app in Hq. destruct Hq as [Hq | Hq].
        -- apply Hgone. exact Hq.
        -- apply list_elem_of_singleton in Hq. subst q.
           apply Hkeep. cbn. apply lookup_delete_eq.
    + cbn. replace (Z.to_nat (Z.min current count)) with (length ps) by lia.
      rewrite take_ge, drop_ge by lia.
      repeat split; try f_equal; try lia; try tauto.
      intros p Hp. inversion Hp.
Qed.

(** [set_particle_count] in terms of its two loops. *)
Lemma set_particle_count_loops (n : Z) (self : state) :
  let c := clamp_count n in
  let current := Z.of_nat (length (particles self)) in
  let r1 := grow (Z.to_nat (c - current)) current c (particles self) (tk self) in
  let r2 := shrink (Z.to_nat (fst (fst r1) - c)) (fst (fst r1)) c
              (snd (fst r1)) (snd r1) in
  set_particle_count n self = mk_state c (snd (fst r2)) (snd r2).
Proof.
  unfold set_particle_count, clamp_count, St.bind. cbn zeta.
  destruct (grow _ _ _ (particles self) (tk self)) as [[cur ps] e1].
  cbn [fst snd].
  destruct (shrink _ cur _ ps e1) as [[cur' ps'] e2].
  reflexivity.
Qed.

Lemma clamp_count_range (n : Z) : 5 <= clamp_count n <= 150.
Proof. unfold clamp_count. lia. Qed.

Lemma clamp_count_id (n : Z) : 5 <= n <= 150 -> clamp_count n = n.
Proof. unfold clamp_count. lia. Qed.

Lemma grow_done (fuel : nat) (current count : Z) (ps : list particle) (e : env) :
  count <= current -> grow fuel current count ps e = ((current, ps), e).
Proof.
  intros H. destruct fuel; cbn [grow]; [reflexivity |].
  destruct (Z.ltb_spec current count); [lia | reflexivity].
Qed.

Lemma shrink_done (fuel : nat) (current count : Z) (ps : list particle) (e : env) :
  current <= count -> shrink fuel current count ps e = ((current, ps), e).
Proof.
  intros H. destruct fuel; cbn [shrink]; [reflexivity |].
  destruct (Z.ltb_spec count current); [lia | reflexivity].
Qed.

Lemma shrink_next_item (fuel : nat) :
  forall (current count : Z) (ps : list particle) (e : env),
    next_item (snd (shrink fuel current count ps e)) = next_item e.
Proof.
  induction fuel as [|fuel IH]; intros current count ps e; cbn [shrink].
  - reflexivity.
  - destruct (count <? current); [| reflexivity].
    destruct (pop ps) as [[p ps'] |]; [| reflexivity].
    unfold St.bind. cbn. rewrite IH. reflexivity.
Qed.

(** What a call of [set_particle_count] leaves behind when particles have to
    be added (or the number is already right). *)
Lemma set_particle_count_grows (n : Z) (self : state) :
  Z.of_nat (length (particles self)) <= clamp_count n ->
  exists added,
    particles (set_particle_count n self) = particles self ++ added /\
    Z.of_nat (length added)
    = clamp_count n - Z.of_nat (length (particles self)) /\
    next_item (tk (set_particle_count n self))
    = next_item (tk self) + Z.of_nat (length added) /\
    (Z.of_nat (length (particles self)) = clamp_count n ->
     tk (set_particle_count n self) = tk self).
Proof.
  intros Hle. rewrite set_particle_count_loops. cbn zeta.
  set (c := clamp_count n) in *.
  set (len := Z.of_nat (length (particles self))) in *.
  destruct (grow_spec (Z.to_nat (c - len)) len c (particles self) (tk self)
              (le_n _)) as (added & Hgrow & Hlen & Hnext).
  exists added. rewrite Hgrow. cbn [fst snd].
  replace (Z.max len c) with c by lia.
  rewrite shrink_done by lia. cbn [fst snd].
  repeat split; try assumption; try lia.
  intros Heq. rewrite grow_done by lia. reflexivity.
Qed.

(** What it leaves behind when particles have to be removed. *)
Lemma set_particle_count_shrinks (n : Z) (self : state) :
  clamp_count n <= Z.of_nat (length (particles self)) ->
  particles (set_particle_count n self)
  = take (Z.to_nat (clamp_count n)) (particles self) /\
  next_item (tk (set_particle_count n self)) = next_item (tk self) /\
  (forall p, p ∈ drop (Z.to_nat (clamp_count n)) (particles self) ->
             items (tk (set_particle_count n self)) !! p_id p = None).
Proof.
  intros Hge. rewrite set_particle_count_loops. cbn zeta.
  pose proof (clamp_count_range n) as Hc.
  set (c := clamp_count n) in *.
  set (len := Z.of_nat (length (particles self))) in *.
  rewrite grow_done by lia. cbn [fst snd].
  destruct (shrink_spec (Z.to_nat (len - c)) len c (particles self) (tk self)
              eq_refl ltac:(lia) (le_n _)) as (Hres & _ & Hgone & _).
  replace (Z.min len c) with c in * by lia.
  rewrite Hres. cbn [fst snd].
  split; [reflexivity |]. split; [apply shrink_next_item | exact Hgone].
Qed.

Lemma set_particle_count_length (n : Z) (self : state) :
  Z.of_nat (length (particles (set_particle_count n self))) = clamp_count n.
Proof.
  pose proof (clamp_count_range n) as Hc.
  destruct (Z.le_gt_cases (Z.of_nat (length (particles self))) (clamp_count n))
    as [Hle | Hgt].
  - destruct (set_particle_count_grows n self Hle) as (added & -> & Hlen & _).
    rewrite length_app. lia.
  - destruct (set_particle_count_shrinks n self ltac:(lia)) as (-> & _).
    rewrite length_take. lia.
Qed.

Lemma set_particle_count_desired (n : Z) (self : state) :
  desired_count (set_particle_count n self) = clamp_count n.
Proof. rewrite set_particle_count_loops. reflexivity. Qed.

(** C3.  For every integer n, one call of [set_particle_count n] leaves
    exactly clamp(n, 5, 150) particles, hence exactly n when n is within
    [5, 150].  When the field grows, the old particles stay in place and the
    missing ones are appended, one canvas item created for each; when it
    shrinks, the particles beyond the new count are removed from the end and
    their canvas items deleted. *)
Theorem set_particle_count_converges (n : Z) (self : state) :
  Z.of_nat (length (particles (set_particle_count n self))) = clamp_count n /\
  (5 <= n <= 150 ->
   Z.of_nat (length (particles (set_particle_count n self))) = n) /\
  (Z.of_nat (length (particles self)) <= clamp_count n ->
   exists added,
     particles (set_particle_count n self) = particles self ++ added /\
     Z.of_nat (length added)
     = clamp_count n - Z.of_nat (length (particles self)) /\
     next_item (tk (set_particle_count n self))
     = next_item (tk self) + Z.of_nat (length added)) /\
  (clamp_count n <= Z.of_nat (length (particles self)) ->
   particles (set_particle_count n self)
   = take (Z.to_nat (clamp_count n)) (particles self) /\
   forall p, p ∈ drop (Z.to_nat (clamp_count n)) (particles self) ->
             items (tk (set_particle_count n self)) !! p_id p = None).
Proof.
  split; [apply set_particle_count_length |]. split; [| split].
  - intros Hn. rewrite set_particle_count_length. apply clamp_count_id. exact Hn.
  - intros Hle.
    destruct (set_particle_count_grows n self Hle) as (added & H1 & H2 & H3 & _).
    exists added. auto.
  - intros Hge.
    destruct (set_particle_count_shrinks n self Hge) as (H1 & _ & H3).
    auto.
Qed.

Lemma set_particle_count_converges_witness :
  Z.of_nat (length (particles (set_particle_count 7 fresh_field))) = 7 /\
  (exists added,
     particles (set_particle_count 7 fresh_field)
     = particles fresh_field ++ added /\
     Z.of_nat (length added)
     = clamp_count 7 - Z.of_nat (length (particles fresh_field)) /\
     next_item (tk (set_particle_count 7 fresh_field))
     = next_item (tk fresh_field) + Z.of_nat (length added)) /\
  particles (set_particle_count 2 six_field)
  = take (Z.to_nat (clamp_count 2)) (particles six_field) /\
  forall p, p ∈ drop (Z.to_nat (clamp_count 2)) (particles six_field) ->
            items (tk (set_particle_count 2 six_field)) !! p_id p = None.
Proof.
  split; [| split].
  - apply (proj1 (proj2 (set_particle_count_converges 7 fresh_field))). lia.
  - apply (proj1 (proj2 (proj2 (set_particle_count_converges 7 fresh_field)))).
    vm_compute. discriminate.
  - apply (proj2 (proj2 (proj2 (set_particle_count_converges 2 six_field)))).
    vm_compute. discriminate.
Defined.

(** C6.  [set_particle_count] is idempotent: a second call with the same
    value leaves the whole state as the first call left it, so no particle
    and no canvas item is created or removed. *)
Theorem set_particle_count_idempotent (n : Z) (self : state) :
  set_particle_count n (set_particle_count n self) = set_particle_count n self.
Proof.
  set (self' := set_particle_count n self).
  assert (Hlen : Z.of_nat (length (particles self')) = clamp_count n)
    by apply set_particle_count_length.
  assert (Hdes : desired_count self' = clamp_count n)
    by apply set_particle_count_desired.
  destruct (set_particle_count_grows n self' ltac:(lia))
    as (added & Hps & Hadd & _ & Htk).
  assert (Hnil : added = []) by (apply length_zero_iff_nil; lia).
  subst added. rewrite app_nil_r in Hps.
  specialize (Htk Hlen).
  pose proof (set_particle_count_desired n self') as Hdes'.
  destruct (set_particle_count n self') as [d ps e].
  destruct self' as [d' ps' e']. cbn in *. congruence.
Qed.

(** The scenario of 40 particles cut down to 10: the first ten particles
    remain and the canvas items of the other thirty are released. *)
Example forty_then_ten :
  length (particles forty_field) = 40%nat /\
  size (items (tk forty_field)) = 40%nat /\
  particles (set_particle_count 10 forty_field)
  = take 10 (particles forty_field) /\
  size (items (tk (set_particle_count 10 forty_field))) = 10%nat.
Proof. vm_compute. repeat split. Qed.

End ParticleCanvasProofs.

(** * Properties of the application *)

Module TranslatorAppProofs.
Import Str TranslatorApp.

(** ** The history log *)

Lemma deque_append_maxlen {A : Type} (x : A) (d : deque A) :
  maxlen (deque_append x d) = maxlen d.
Proof. reflexivity. Qed.

Lemma deque_append_bounded {A : Type} (x : A) (d : deque A) :
  (length (elems d) <= maxlen d)%nat ->
  (length (elems (deque_append x d)) <= maxlen d)%nat.
Proof.
  intros H. unfold deque_append. cbn [elems maxlen].
  destruct (Nat.ltb_spec (maxlen d) (length (elems d ++ [x]))) as [Hlt | Hge].
  - rewrite length_app in Hlt. cbn in Hlt.
    destruct (elems d) as [|y l]; cbn in *; [lia |].
    rewrite length_app. cbn. lia.
  - exact Hge.
Qed.

(** On a full deque, [append] drops the oldest element and keeps the others
    in order, the new one last; on a deque with room it only adds. *)
Lemma deque_append_elems {A : Type} (x : A) (d : deque A) :
  (length (elems d) <= maxlen d)%nat ->
  elems (deque_append x d)
  = if (length (elems d) <? maxlen d)%nat then elems d ++ [x]
    else tl (elems d ++ [x]).
Proof.
  intros H. unfold deque_append. cbn [elems].
  rewrite length_app. cbn [length].
  destruct (Nat.ltb_spec (maxlen d) (length (elems d) + 1));
    destruct (Nat.ltb_spec (length (elems d)) (maxlen d));
    try reflexivity; lia.
Qed.

Lemma record_all_bounded (calls : list (str * str * str * str))
    (h : deque entry) :
  (length (elems h) <= maxlen h)%nat ->
  maxlen (record_all calls h) = maxlen h /\
  (length (elems (record_all calls h)) <= maxlen h)%nat.
Proof.
  revert h. induction calls as [|[[[s t] d] g] calls IH]; intros h Hh.
  - split; [reflexivity | exact Hh].
  - cbn [record_all fold_left].
    pose proof (deque_append_bounded
                  (preview s, preview t, d, g) h Hh) as Hstep.
    destruct (IH (_record_history s t d g h) Hstep) as [Hm Hl].
    split; [exact Hm | exact Hl].
Qed.

(** C8.  The history log never holds more than 10 entries, whatever
    translations are recorded; recording into a full log drops the oldest
    entry and keeps the remaining ones in order, the new entry last. *)
Theorem history_bounded_oldest_evicted
    (calls : list (str * str * str * str))
    (source translation detected target : str) :
  (length (elems (record_all calls initial_history)) <= 10)%nat /\
  (length (elems (record_all calls initial_history)) = 10%nat ->
   elems (_record_history source translation detected target
            (record_all calls initial_history))
   = tl (elems (record_all calls initial_history))
     ++ [(preview source, preview translation, detected, target)]) /\
  ((length (elems (record_all calls initial_history)) < 10)%nat ->
   elems (_record_history source translation detected target
            (record_all calls initial_history))
   = elems (record_all calls initial_history)
     ++ [(preview source, preview translation, detected, target)]).
Proof.
  destruct (record_all_bounded calls initial_history) as [Hm Hl];
    [cbn; lia |].
  change (maxlen initial_history) with 10%nat in Hm, Hl.
  split; [exact Hl |].
  unfold _record_history.
  rewrite deque_append_elems by (rewrite Hm; exact Hl).
  rewrite Hm. split; intros H.
  - rewrite H. cbn [Nat.ltb Nat.leb].
    destruct (elems (record_all calls initial_history)); [discriminate |].
    reflexivity.
  - destruct (Nat.ltb_spec (length (elems (record_all calls initial_history))) 10);
      [reflexivity | lia].
Qed.

Lemma history_bounded_oldest_evicted_witness :
  elems (_record_history [104; 105]%N [111; 105]%N [101; 110]%N [101; 115]%N
           (record_all ten_calls initial_history))
  = tl (elems (record_all ten_calls initial_history))
    ++ [(preview [104; 105]%N, preview [111; 105]%N, [101; 110]%N, [101; 115]%N)].
Proof.
  apply (proj1 (proj2 (history_bounded_oldest_evicted ten_calls
                         [104; 105]%N [111; 105]%N [101; 110]%N [101; 115]%N))).
  reflexivity.
Defined.

(** ** Background workers *)

(** When the call returns, the success closure is queued once and, run at
    any later time, hands the call's value to [_apply_translation]. *)
Lemma worker_success_delivered (r : translated) (k : nat) :
  m_log (run ([worker_turn; worker_turn] ++ repeat ui_turn (S k))
           (spawn translate_worker (Returns r)))
  = [called_apply_translation r] /\
  m_log (run ([worker_turn; worker_turn] ++ repeat ui_turn (S k))
           (spawn speak_worker (Returns r)))
  = [called_set_status "Done speaking."].
Proof.
  split; cbn; induction k as [|k IH]; cbn; auto.
Qed.

(** When the UI thread happens to run the failure closure while the worker
    still stands inside its except clause, the handler gets the exception. *)
Lemma worker_failure_delivered_early (e : exn) :
  m_log (run [worker_turn; worker_turn; ui_turn; worker_turn]
           (spawn translate_worker (Raises e)))
  = [called_handle_error e].
Proof. reflexivity. Qed.

Lemma failing_states_closed (w : worker) (e : exn) (t : turn) (m : machine) :
  In m (failing_states w e) -> In (run [t] m) (failing_states w e).
Proof.
  intros H. cbn in H.
  repeat (destruct H as [<- | H]; [destruct w, t; cbn; tauto |]).
  contradiction.
Qed.

(** Whatever the interleaving, a failing worker never has the success
    handler called and has at most one callback run: the failure handler
    with the exception, or the closure that raises [NameError]. *)
Lemma worker_failure_outcomes (w : worker) (e : exn) (schedule : list turn) :
  m_log (run schedule (spawn w (Raises e))) = []
  \/ m_log (run schedule (spawn w (Raises e)))
     = [run_lambda (failure_lambda w) (mk_frame (Some e) None)]
  \/ m_log (run schedule (spawn w (Raises e))) = [raised_NameError "exc"].
Proof.
  assert (Hin : In (run schedule (spawn w (Raises e))) (failing_states w e)).
  { assert (H0 : In (spawn w (Raises e)) (failing_states w e))
      by (left; reflexivity).
    revert H0. generalize (spawn w (Raises e)).
    induction schedule as [|t schedule IH]; intros m Hm; [exact Hm |].
    apply (IH (run [t] m)). apply failing_states_closed. exact Hm. }
  cbn in Hin.
  repeat (destruct Hin as [<- | Hin]; [cbn; tauto |]).
  contradiction.
Qed.

(** C1, where the code departs from it.  The operation raises [e]; the
    worker queues its failure closure and returns, which leaves the except
    clause and unbinds [exc]; the UI thread then runs the closure.  The
    closure raises [NameError]: neither [_handle_error] nor the status update
    of the speech worker is called with the exception. *)
Theorem worker_failure_not_delivered (w : worker) (e : exn) (k : nat) :
  m_log (run ([worker_turn; worker_turn; worker_turn] ++ repeat ui_turn (S k))
           (spawn w (Raises e)))
  = [raised_NameError "exc"].
Proof.
  destruct w; cbn; induction k as [|k IH]; cbn; auto.
Qed.

(** ** Debounce *)

Section Debounce.

Variable LANGUAGE_MAP : gmap string string.

Local Abbreviation translate := (TranslatorApp.translate LANGUAGE_MAP).
Local Abbreviation dispatch := (TranslatorApp.dispatch LANGUAGE_MAP).
Local Abbreviation run_until := (TranslatorApp.run_until LANGUAGE_MAP).
Local Abbreviation key_release := (TranslatorApp.key_release LANGUAGE_MAP).
Local Abbreviation type_burst := (TranslatorApp.type_burst LANGUAGE_MAP).

(** [translate] touches neither the clock nor the timers. *)
Lemma translate_frame (a : app) :
  now (translate a) = now a /\
  timers (translate a) = timers a /\
  next_after (translate a) = next_after a /\
  dispatched (translate a) = dispatched a.
Proof.
  unfold TranslatorApp.translate.
  destruct (strip (source_text a)); [repeat split |].
  destruct (source_code LANGUAGE_MAP (source_lang_var a));
    destruct (LANGUAGE_MAP !! target_lang_var a); repeat split.
Qed.

Lemma after_cancel_single (id : nat) (due : Z) (cb : callback) (a : app) :
  timers a = [mk_timer id due cb] -> timers (after_cancel id a) = [].
Proof.
  intros H. unfold after_cancel. cbn. rewrite H.
  rewrite filter_cons_False by (cbn; auto). reflexivity.
Qed.

Lemma after_cancel_none (id : nat) (a : app) :
  timers a = [] -> timers (after_cancel id a) = [].
Proof. intros H. unfold after_cancel. cbn. rewrite H. reflexivity. Qed.

Lemma dispatch_idle (t : Z) (a : app) : timers a = [] -> dispatch t a = None.
Proof. intros H. unfold TranslatorApp.dispatch. rewrite H. reflexivity. Qed.

Lemma dispatch_not_due (t : Z) (tm : timer) (a : app) :
  timers a = [tm] -> t < tm_due tm -> dispatch t a = None.
Proof.
  intros H Hlt. unfold TranslatorApp.dispatch. rewrite H. cbn.
  destruct (Z.leb_spec (tm_due tm) t); [lia | reflexivity].
Qed.

Lemma run_until_idle (fuel : nat) (t : Z) (a : app) :
  dispatch t a = None -> run_until fuel t a = a.
Proof. intros H. destruct fuel; cbn; [| rewrite H]; reflexivity. Qed.

(** One key release: whatever was pending is cancelled and a single
    auto-translate timer is left, due one quiet period later. *)
Lemma key_release_reschedules (fuel : nat) (t : Z) (text : str) (a : app) :
  quiet_at t a ->
  timers (key_release fuel t text a)
  = [mk_timer (next_after a) (t + auto_translate_delay) cb_translate] /\
  typing_job (key_release fuel t text a) = Some (next_after a) /\
  now (key_release fuel t text a) = t /\
  dispatched (key_release fuel t text a) = dispatched a /\
  workers (key_release fuel t text a) = workers a.
Proof.
  intros [Hnow Hpending]. unfold TranslatorApp.key_release.
  assert (Hidle : run_until fuel t a = a).
  { apply run_until_idle.
    destruct Hpending as [H | (id & due & H & _ & Hdue)].
    - apply dispatch_idle. exact H.
    - eapply dispatch_not_due; [exact H | exact Hdue]. }
  rewrite Hidle. unfold TranslatorApp._on_input_change.
  replace (Z.max (now a) t) with t by lia.
  destruct Hpending as [H | (id & due & H & Hjob & _)].
  - cbn. destruct (typing_job a); cbn; rewrite H; cbn; repeat split.
  - cbn. rewrite Hjob. cbn. rewrite H.
    rewrite filter_cons_False by (cbn; auto). cbn. repeat split.
Qed.

Lemma last_cons_default (l : list Z) (t d : Z) :
  List.last (t :: l) d = List.last l t.
Proof.
  revert t d. induction l as [|x l IH]; intros t d; [reflexivity |].
  change (List.last (t :: x :: l) d) with (List.last (x :: l) d).
  rewrite (IH x d), (IH x t). reflexivity.
Qed.

Lemma type_burst_reschedules (fuel : nat) (rest : list (Z * str)) :
  forall (a : app) (t1 : Z) (text1 : str),
    quiet_at t1 a -> burst t1 rest ->
    exists id,
      timers (type_burst fuel ((t1, text1) :: rest) a)
      = [mk_timer id (last_time t1 rest + auto_translate_delay) cb_translate] /\
      typing_job (type_burst fuel ((t1, text1) :: rest) a) = Some id /\
      now (type_burst fuel ((t1, text1) :: rest) a) = last_time t1 rest /\
      dispatched (type_burst fuel ((t1, text1) :: rest) a) = dispatched a /\
      workers (type_burst fuel ((t1, text1) :: rest) a) = workers a.
Proof.
  induction rest as [|[t2 text2] rest IH]; intros a t1 text1 Hq Hb.
  - destruct (key_release_reschedules fuel t1 text1 a Hq)
      as (Ht & Hj & Hn & Hd & Hw).
    exists (next_after a). cbn. auto.
  - destruct Hb as [Ht2 Hb].
    destruct (key_release_reschedules fuel t1 text1 a Hq)
      as (Ht & Hj & Hn & Hd & Hw).
    assert (Hq2 : quiet_at t2 (key_release fuel t1 text1 a)).
    { split; [lia |]. right. eexists _, _. split; [exact Ht |].
      split; [exact Hj | lia]. }
    destruct (IH (key_release fuel t1 text1 a) t2 text2 Hq2 Hb)
      as (id & H1 & H2 & H3 & H4 & H5).
    exists id.
    change (type_burst fuel ((t1, text1) :: (t2, text2) :: rest) a)
      with (type_burst fuel ((t2, text2) :: rest) (key_release fuel t1 text1 a)).
    replace (last_time t1 ((t2, text2) :: rest)) with (last_time t2 rest).
    + rewrite H1, H2, H3, H4, H5, Hd, Hw. auto.
    + unfold last_time. cbn [map fst]. symmetry. apply last_cons_default.
Qed.

(** The single pending auto-translate timer fires once it is due, and
    nothing is pending afterwards. *)
Lemma run_until_fires_translate (fuel : nat) (T : Z) (id : nat) (due : Z) (a : app) :
  timers a = [mk_timer id due cb_translate] -> due <= T ->
  exists a0,
    run_until (S fuel) T a = translate a0 /\
    timers a0 = [] /\
    dispatched a0 = dispatched a ++ [(due, cb_translate)] /\
    workers a0 = workers a /\
    source_text a0 = source_text a /\
    source_lang_var a0 = source_lang_var a /\
    target_lang_var a0 = target_lang_var a /\
    typing_job a0 = typing_job a.
Proof.
  intros Ht Hdue. cbn [TranslatorApp.run_until].
  unfold TranslatorApp.dispatch. rewrite Ht. cbn [earliest tm_due tm_id tm_callback].
  destruct (Z.leb_spec due T); [| lia].
  cbn [run_callback].
  match goal with
  | |- context [TranslatorApp.translate _ ?x] => set (a0 := x)
  end.
  assert (Ht0 : timers a0 = []).
  { unfold a0. cbn [timers]. eapply after_cancel_single. exact Ht. }
  exists a0. split.
  - apply run_until_idle. apply dispatch_idle.
    destruct (translate_frame a0) as (_ & -> & _). exact Ht0.
  - split; [exact Ht0 |]. repeat split.
Qed.


(** On blank input [translate] only sets the status: no translation is
    started and the stored handle stays as it is. *)
Lemma translate_blank (a : app) :
  strip (source_text a) = [] ->
  translate a = set_status "Type something to translate." a.
Proof. intros H. unfold TranslatorApp.translate. rewrite H. reflexivity. Qed.

(** C10.  While an auto-translate timer is pending and the input box holds
    text, a direct call of [translate] starts a translation and sets the
    stored handle to [None] but leaves the timer pending; when the timer
    falls due it runs [translate] again, which starts a second translation
    of the same text. *)
Theorem direct_translate_leaves_timer (a : app) (id : nat) (due : Z)
    (src_code tgt_code : string) (fuel : nat) (T : Z) :
  typing_job a = Some id ->
  timers a = [mk_timer id due cb_translate] ->
  strip (source_text a) <> [] ->
  source_code LANGUAGE_MAP (source_lang_var a) = Some src_code ->
  LANGUAGE_MAP !! target_lang_var a = Some tgt_code ->
  due <= T ->
  typing_job (translate a) = None /\
  timers (translate a) = [mk_timer id due cb_translate] /\
  workers (translate a)
  = workers a ++ [(strip (source_text a), src_code, tgt_code)] /\
  dispatched (run_until (S fuel) T (translate a))
  = dispatched a ++ [(due, cb_translate)] /\
  workers (run_until (S fuel) T (translate a))
  = workers a ++ [(strip (source_text a), src_code, tgt_code);
                  (strip (source_text a), src_code, tgt_code)].
Proof.
  intros Hjob Ht Htext Hsrc Htgt HT.
  assert (Hrun : forall b : app,
            strip (source_text b) <> [] ->
            source_code LANGUAGE_MAP (source_lang_var b) = Some src_code ->
            LANGUAGE_MAP !! target_lang_var b = Some tgt_code ->
            typing_job (translate b) = None /\
            workers (translate b)
            = workers b ++ [(strip (source_text b), src_code, tgt_code)] /\
            source_text (translate b) = source_text b /\
            source_lang_var (translate b) = source_lang_var b /\
            target_lang_var (translate b) = target_lang_var b).
  { intros b Hb Hs Hg. unfold TranslatorApp.translate.
    destruct (strip (source_text b)) as [|c text] eqn:Hstrip; [congruence |].
    rewrite Hs, Hg. repeat split. }
  destruct (Hrun a Htext Hsrc Htgt) as (H1 & H2 & H3 & H4 & H5).
  destruct (translate_frame a) as (_ & Htimers & _ & Hdisp).
  split; [exact H1 |]. split; [rewrite Htimers; exact Ht |].
  split; [exact H2 |].
  destruct (run_until_fires_translate fuel T id due (translate a)
              ltac:(rewrite Htimers; exact Ht) HT)
    as (a0 & -> & _ & Hd0 & Hw0 & Hs0 & Hsl0 & Htl0 & _).
  destruct (Hrun a0) as (_ & H2' & _).
  - rewrite Hs0, H3. exact Htext.
  - rewrite Hsl0, H4. exact Hsrc.
  - rewrite Htl0, H5. exact Htgt.
  - destruct (translate_frame a0) as (_ & _ & _ & ->).
    rewrite Hd0, Hdisp, H2', Hw0, H2, Hs0, H3, <- app_assoc.
    split; reflexivity.
Qed.

End Debounce.


Lemma direct_translate_leaves_timer_witness :
  typing_job (translate two_languages typing_app) = None /\
  timers (translate two_languages typing_app)
  = [mk_timer 0 750 cb_translate] /\
  workers (translate two_languages typing_app)
  = workers typing_app ++ [(strip (source_text typing_app), "auto", "es")] /\
  dispatched (run_until two_languages 1 800 (translate two_languages typing_app))
  = dispatched typing_app ++ [(750, cb_translate)] /\
  workers (run_until two_languages 1 800 (translate two_languages typing_app))
  = workers typing_app ++ [(strip (source_text typing_app), "auto", "es");
                           (strip (source_text typing_app), "auto", "es")].
Proof.
  apply (direct_translate_leaves_timer two_languages typing_app 0 750
           "auto" "es" 0 800).
  - reflexivity.
  - reflexivity.
  - vm_compute. discriminate.
  - reflexivity.
  - reflexivity.
  - lia.
Defined.

End TranslatorAppProofs.

(** * Further properties of the particle field *)

Module ParticleCanvasInvariants.
Import ParticleCanvas.

(** ** What the primitives do to the canvas *)

Lemma draw_redraws (p : particle) (e : env) :
  redraws p e (snd (_draw_particle p e)).
Proof.
  split; [reflexivity |]. split; [reflexivity |]. intros k. cbn.
  destruct (decide (k = p_id p)) as [-> | Hne].
  - rewrite !lookup_alter_eq. destruct (items e !! p_id p); reflexivity.
  - rewrite !lookup_alter_ne by congruence. reflexivity.
Qed.

Lemma randint_items (a b : Z) (e : env) :
  items (snd (randint a b e)) = items e /\
  next_item (snd (randint a b e)) = next_item e.
Proof. split; reflexivity. Qed.

Lemma animate_particle_redraws (width height : Z) :
  body_redraws (animate_particle width height).
Proof.
  intros p e. unfold animate_particle. cbn.
  destruct (Qle_bool _ _ || Qle_bool _ _);
    destruct (Qle_bool (inject_Z height) _); cbn;
    (split; [reflexivity |]; split; [reflexivity |];
     split; [reflexivity |]; intros k; cbn;
     destruct (decide (k = p_id p)) as [-> | Hne];
     [rewrite !lookup_alter_eq; destruct (items e !! p_id p); reflexivity
     | rewrite !lookup_alter_ne by congruence; reflexivity]).
Qed.

Lemma scatter_particle_redraws (width height : Z) :
  body_redraws (scatter_particle width height).
Proof.
  intros p e. unfold scatter_particle. cbn.
  split; [reflexivity |]. split; [reflexivity |]. split; [reflexivity |].
  intros k. cbn.
  destruct (decide (k = p_id p)) as [-> | Hne].
  - rewrite !lookup_alter_eq. destruct (items e !! p_id p); reflexivity.
  - rewrite !lookup_alter_ne by congruence. reflexivity.
Qed.

(** A loop of redrawing bodies keeps the handles and their order, creates
    and deletes no item, and leaves every particle that has an item drawn. *)
Lemma for_each_redraws (body : particle -> Tk particle) :
  body_redraws body ->
  forall ps e,
    handles (fst (for_each body ps e)) = handles ps /\
    length (fst (for_each body ps e)) = length ps /\
    next_item (snd (for_each body ps e)) = next_item e /\
    after_log (snd (for_each body ps e)) = after_log e /\
    dom (items (snd (for_each body ps e))) = dom (items e) /\
    (forall k, k ∉ handles ps ->
               items (snd (for_each body ps e)) !! k = items e !! k) /\
    (NoDup (handles ps) ->
     Forall (fun p' => is_Some (items e !! p_id p') ->
                       items (snd (for_each body ps e)) !! p_id p'
                       = Some (drawn_item p'))
       (fst (for_each body ps e))).
Proof.
  intros Hbody ps. induction ps as [|p rest IH]; intros e.
  - cbn. repeat split; auto.
  - cbn [for_each]. unfold St.bind.
    destruct (Hbody p e) as (Hid & Hnext & Hlog & Hitems).
    destruct (body p e) as [p' e1]. cbn [fst snd] in *.
    destruct (IH e1) as (Hh & Hl & Hn & Hlg & Hd & Hframe & Hdrawn).
    destruct (for_each body rest e1) as [rest' e2]. cbn [fst snd] in *.
    assert (Hdom1 : dom (items e1) = dom (items e)).
    { apply set_eq. intros k. rewrite !elem_of_dom, Hitems.
      destruct (decide (k = p_id p')); [| reflexivity].
      rewrite fmap_is_Some. reflexivity. }
    cbn [St.ret fst snd handles map length].
    repeat split.
    + unfold handles in Hh. rewrite Hh, Hid. reflexivity.
    + rewrite Hl. reflexivity.
    + congruence.
    + congruence.
    + congruence.
    + intros k Hk. apply not_elem_of_cons in Hk. destruct Hk as [Hk1 Hk2].
      rewrite Hframe by exact Hk2. rewrite Hitems.
      destruct (decide (k = p_id p')); [congruence | reflexivity].
    + intros Hnd. apply NoDup_cons in Hnd. destruct Hnd as [Hnotin Hnd].
      constructor.
      * intros [it Hit]. rewrite <- Hid in Hnotin.
        rewrite Hframe by exact Hnotin.
        rewrite Hitems. rewrite decide_True by reflexivity.
        rewrite Hit. reflexivity.
      * eapply Forall_impl; [exact (Hdrawn Hnd) |].
        intros q Hq Hsome. apply Hq.
        rewrite Hitems. destruct (decide (p_id q = p_id p')) as [Heq | _];
          [| exact Hsome].
        rewrite fmap_is_Some. exact Hsome.
Qed.

(** Such a loop keeps the list and the canvas in agreement and leaves every
    particle drawn. *)
Lemma for_each_consistent (body : particle -> Tk particle)
    (ps : list particle) (e : env) :
  body_redraws body -> consistent_with ps e ->
  consistent_with (fst (for_each body ps e)) (snd (for_each body ps e)) /\
  drawn_with (fst (for_each body ps e)) (snd (for_each body ps e)).
Proof.
  intros Hbody (Hnd & Hdom & Hlt).
  destruct (for_each_redraws body Hbody ps e)
    as (Hh & _ & Hn & _ & Hd & _ & Hdrawn).
  split.
  - unfold consistent_with. rewrite Hh, Hn, Hd. auto.
  - unfold drawn_with.
    assert (Hin : Forall (fun p' => p_id p' ∈ handles ps)
                    (fst (for_each body ps e))).
    { rewrite <- Hh. apply Forall_forall. intros q Hq.
      unfold handles. apply list_elem_of_fmap. exists q. auto. }
    apply Forall_forall. intros q Hq.
    apply (proj1 (Forall_forall _ _) (Hdrawn Hnd) q Hq).
    apply elem_of_dom. rewrite Hdom. apply elem_of_list_to_set.
    exact (proj1 (Forall_forall _ _) Hin q Hq).
Qed.

(** ** Ticks and resizes *)

(** [_animate] seen through its loop. *)
Lemma animate_loop (self : state) :
  let r := for_each (animate_particle (tick_width self) (tick_height self))
             (particles self) (tk self) in
  particles (_animate self) = fst r /\
  desired_count (_animate self) = desired_count self /\
  items (tk (_animate self)) = items (snd r) /\
  next_item (tk (_animate self)) = next_item (snd r) /\
  after_log (tk (_animate self)) = after_log (snd r) ++ [(35, "_animate")].
Proof.
  unfold _animate, St.bind, tick_width, tick_height, width_or_1, height_or_1.
  cbn. destruct (for_each _ (particles self) (tk self)) as [ps e1].
  cbn. repeat split.
Qed.

Lemma animate_consistent (self : state) :
  consistent self -> consistent (_animate self) /\ drawn (_animate self).
Proof.
  intros H. destruct (animate_loop self) as (Hp & _ & Hi & Hn & _).
  destruct (for_each_consistent _ _ _
              (animate_particle_redraws (tick_width self) (tick_height self)) H)
    as [Hc Hd].
  unfold consistent, drawn, consistent_with, drawn_with in *.
  rewrite Hp, Hi, Hn. auto.
Qed.

Lemma scatter_consistent (width height : Z) (self : state) :
  consistent self ->
  consistent (_scatter_particles width height self) /\
  (drawn self \/ (1 < width /\ 1 < height) ->
   drawn (_scatter_particles width height self)).
Proof.
  intros H. unfold _scatter_particles.
  destruct ((width <=? 1) || (height <=? 1)) eqn:Hsmall.
  - split; [exact H |]. intros [Hd | [Hw Hh]]; [exact Hd |].
    apply orb_true_iff in Hsmall. destruct Hsmall as [Hs | Hs];
      apply Z.leb_le in Hs; lia.
  - destruct (for_each_consistent _ _ _
                (scatter_particle_redraws width height) H) as [Hc Hd].
    destruct (for_each _ (particles self) (tk self)) as [ps e1].
    split; [exact Hc | intros _; exact Hd].
Qed.

(** ** Creating and removing particles *)

Lemma create_particle_effect (e : env) :
  p_id (fst (_create_particle e)) = next_item e /\
  next_item (snd (_create_particle e)) = next_item e + 1 /\
  after_log (snd (_create_particle e)) = after_log e /\
  dom (items (snd (_create_particle e))) = {[next_item e]} ∪ dom (items e) /\
  (forall k, k <> next_item e ->
             items (snd (_create_particle e)) !! k = items e !! k).
Proof.
  unfold _create_particle, St.bind. cbn.
  repeat split; try reflexivity.
  - apply dom_insert_L.
  - intros k Hk. apply lookup_insert_ne. congruence.
Qed.

Lemma place_new_particle_effect (e : env) :
  p_id (fst (place_new_particle e)) = next_item e /\
  next_item (snd (place_new_particle e)) = next_item e + 1 /\
  after_log (snd (place_new_particle e)) = after_log e /\
  items (snd (place_new_particle e))
  = <[next_item e := drawn_item (fst (place_new_particle e))]> (items e).
Proof.
  unfold place_new_particle, St.bind. cbn.
  repeat split; try reflexivity.
  apply map_eq. intros k.
  destruct (decide (k = next_item e)) as [-> | Hne].
  - rewrite !lookup_alter_eq, !lookup_insert_eq. reflexivity.
  - rewrite !lookup_alter_ne, !lookup_insert_ne by congruence. reflexivity.
Qed.

Lemma consistent_with_snoc (ps : list particle) (p : particle) (e e' : env) :
  consistent_with ps e ->
  p_id p = next_item e ->
  next_item e' = next_item e + 1 ->
  dom (items e') = {[next_item e]} ∪ dom (items e) ->
  consistent_with (ps ++ [p]) e'.
Proof.
  intros (Hnd & Hdom & Hlt) Hid Hnext Hdom'.
  unfold consistent_with, handles in *. rewrite map_app. cbn [map].
  split; [| split].
  - apply NoDup_app. split; [exact Hnd |]. split; [| apply NoDup_singleton].
    intros k Hk Hk'. apply list_elem_of_singleton in Hk'. subst k.
    apply (proj1 (Forall_forall _ _) Hlt) in Hk. lia.
  - rewrite Hdom', Hdom, list_to_set_app_L, Hid. cbn. set_solver.
  - apply Forall_app. split.
    + eapply Forall_impl; [exact Hlt |]. cbn. intros. lia.
    + repeat constructor. lia.
Qed.

Lemma grow_consistent (fuel : nat) :
  forall (current count : Z) (ps : list particle) (e : env),
    consistent_with ps e ->
    consistent_with (snd (fst (grow fuel current count ps e)))
      (snd (grow fuel current count ps e)) /\
    (drawn_with ps e ->
     drawn_with (snd (fst (grow fuel current count ps e)))
       (snd (grow fuel current count ps e))) /\
    after_log (snd (grow fuel current count ps e)) = after_log e.
Proof.
  induction fuel as [|fuel IH]; intros current count ps e Hc.
  - cbn. auto.
  - cbn [grow]. destruct (current <? count); [| cbn; auto].
    unfold St.bind.
    destruct (place_new_particle_effect e) as (Hid & Hnext & Hlog & Hitems).
    destruct (place_new_particle e) as [p e1]. cbn [fst snd] in *.
    assert (Hc1 : consistent_with (ps ++ [p]) e1).
    { eapply consistent_with_snoc; eauto.
      rewrite Hitems. apply dom_insert_L. }
    destruct (IH (current + 1) count (ps ++ [p]) e1 Hc1) as (H1 & H2 & H3).
    split; [exact H1 |]. split; [| congruence].
    intros Hd. apply H2. unfold drawn_with in *. apply Forall_app. split.
    + apply Forall_forall. intros q Hq.
      rewrite Hitems, lookup_insert_ne.
      * exact (proj1 (Forall_forall _ _) Hd q Hq).
      * destruct Hc as (_ & _ & Hlt).
        assert (Hql : p_id q < next_item e).
        { apply (proj1 (Forall_forall _ _) Hlt). unfold handles.
          apply list_elem_of_fmap. exists q. auto. }
        lia.
    + repeat constructor. rewrite Hitems, Hid. apply lookup_insert_eq.
Qed.

Lemma shrink_consistent (fuel : nat) :
  forall (current count : Z) (ps : list particle) (e : env),
    consistent_with ps e ->
    consistent_with (snd (fst (shrink fuel current count ps e)))
      (snd (shrink fuel current count ps e)) /\
    (drawn_with ps e ->
     drawn_with (snd (fst (shrink fuel current count ps e)))
       (snd (shrink fuel current count ps e))) /\
    after_log (snd (shrink fuel current count ps e)) = after_log e.
Proof.
  induction fuel as [|fuel IH]; intros current count ps e Hc.
  - cbn. auto.
  - cbn [shrink]. destruct (count <? current); [| cbn; auto].
    destruct (ParticleCanvasProofs.pop_cases ps)
      as [-> | (p & ps' & -> & ->)]; [cbn; auto |].
    unfold St.bind. cbn [delete_item St.modify fst snd].
    set (e1 := set_items (delete (p_id p) (items e)) e).
    destruct Hc as (Hnd & Hdom & Hlt).
    unfold handles in *. rewrite map_app in *. cbn [map] in *.
    apply NoDup_app in Hnd. destruct Hnd as (Hnd & Hdisj & _).
    apply Forall_app in Hlt. destruct Hlt as [Hlt _].
    assert (Hnotin : p_id p ∉ map p_id ps').
    { intros Hin. apply (Hdisj _ Hin). apply list_elem_of_singleton.
      reflexivity. }
    assert (Hc1 : consistent_with ps' e1).
    { split; [exact Hnd |]. split; [| exact Hlt].
      unfold e1. cbn. rewrite dom_delete_L, Hdom, list_to_set_app_L.
      cbn. unfold handles. set_solver. }
    destruct (IH (current - 1) count ps' e1 Hc1) as (H1 & H2 & H3).
    split; [exact H1 |]. split; [| exact H3].
    intros Hd. apply H2. unfold drawn_with in *.
    apply Forall_app in Hd. destruct Hd as [Hd _].
    apply Forall_forall. intros q Hq. unfold e1. cbn.
    rewrite lookup_delete_ne.
    + exact (proj1 (Forall_forall _ _) Hd q Hq).
    + intros Heq. apply Hnotin. rewrite Heq.
      apply list_elem_of_fmap. exists q. auto.
Qed.

Lemma set_particle_count_consistent (n : Z) (self : state) :
  consistent self ->
  consistent (set_particle_count n self) /\
  (drawn self -> drawn (set_particle_count n self)) /\
  after_log (tk (set_particle_count n self)) = after_log (tk self).
Proof.
  intros Hc. rewrite ParticleCanvasProofs.set_particle_count_loops. cbn zeta.
  set (c := clamp_count n).
  set (len := Z.of_nat (length (particles self))).
  destruct (grow_consistent (Z.to_nat (c - len)) len c (particles self)
              (tk self) Hc) as (G1 & G2 & G3).
  destruct (grow (Z.to_nat (c - len)) len c (particles self) (tk self))
    as [[cur ps] e1]. cbn [fst snd] in *.
  destruct (shrink_consistent (Z.to_nat (cur - c)) cur c ps e1 G1)
    as (S1 & S2 & S3).
  destruct (shrink (Z.to_nat (cur - c)) cur c ps e1) as [[cur' ps'] e2].
  cbn [fst snd] in *. unfold consistent, drawn. cbn.
  split; [exact S1 |]. split; [| congruence].
  intros Hd. apply S2, G2, Hd.
Qed.

Lemma reseed_consistent (self : state) :
  consistent self ->
  consistent (reseed self) /\ (drawn self -> drawn (reseed self)).
Proof.
  intros Hc. unfold reseed.
  destruct (scatter_consistent (fst (width_or_1 (tk self)))
              (fst (height_or_1 (tk self))) self Hc) as [H1 H2].
  destruct (set_particle_count_consistent
              (desired_count (_scatter_particles (fst (width_or_1 (tk self)))
                                (fst (height_or_1 (tk self))) self))
              _ H1) as (H3 & H4 & _).
  split; [exact H3 |]. intros Hd. apply H4, H2. left. exact Hd.
Qed.

Lemma apply_op_consistent (o : op) (self : state) :
  consistent self ->
  consistent (apply_op o self) /\ (drawn self -> drawn (apply_op o self)).
Proof.
  intros Hc. destruct o as [| ev | n |]; cbn [apply_op].
  - destruct (animate_consistent self Hc). auto.
  - destruct (scatter_consistent (ev_width ev) (ev_height ev) self Hc)
      as [H1 H2]. split; [exact H1 | auto].
  - destruct (set_particle_count_consistent n self Hc) as (H1 & H2 & _). auto.
  - apply reseed_consistent. exact Hc.
Qed.

Lemma run_ops_consistent (ops : list op) :
  forall self, consistent self ->
    consistent (run_ops ops self) /\ (drawn self -> drawn (run_ops ops self)).
Proof.
  induction ops as [|o ops IH]; intros self Hc; [auto |].
  destruct (apply_op_consistent o self Hc) as [H1 H2].
  destruct (IH (apply_op o self) H1) as [H3 H4].
  split; [exact H3 | intros Hd; apply H4, H2, Hd].
Qed.

Lemma create_particles_handles (n : nat) :
  forall e,
    handles (fst (create_particles n e)) = seqZ (next_item e) (Z.of_nat n) /\
    length (fst (create_particles n e)) = n /\
    next_item (snd (create_particles n e)) = next_item e + Z.of_nat n /\
    after_log (snd (create_particles n e)) = after_log e /\
    dom (items (snd (create_particles n e)))
    = dom (items e) ∪ list_to_set (handles (fst (create_particles n e))).
Proof.
  induction n as [|n IH]; intros e.
  - cbn. repeat split; try lia. set_solver.
  - cbn [create_particles]. unfold St.bind.
    destruct (create_particle_effect e) as (Hid & Hnext & Hlog & Hdom & _).
    destruct (_create_particle e) as [p e1]. cbn [fst snd] in *.
    destruct (IH e1) as (Hh & Hl & Hn & Hlg & Hd).
    destruct (create_particles n e1) as [rest e2]. cbn [fst snd St.ret] in *.
    unfold handles in *. cbn [map length].
    rewrite Hh, Hid, Hnext, Hl, Hn, Hlg, Hd, Hdom, Hh, Hnext.
    replace (Z.of_nat (S n)) with (Z.succ (Z.of_nat n)) by lia.
    rewrite (seqZ_cons (next_item e) (Z.succ (Z.of_nat n))) by lia.
    replace (Z.pred (Z.succ (Z.of_nat n))) with (Z.of_nat n) by lia.
    replace (Z.succ (next_item e)) with (next_item e + 1) by lia.
    repeat split; try lia; try assumption.
    cbn. set_solver.
Qed.

Lemma init_consistent (particle_count : Z) (e : env) :
  items e = ∅ -> consistent (__init__ particle_count e).
Proof.
  intros Hempty. unfold __init__, St.bind.
  destruct (create_particles_handles (Z.to_nat particle_count) e)
    as (Hh & _ & Hn & _ & Hd).
  destruct (create_particles (Z.to_nat particle_count) e) as [ps e1].
  cbn [fst snd] in *. unfold consistent, consistent_with. cbn -[handles].
  rewrite Hh. split; [apply NoDup_seqZ |]. split.
  - rewrite Hd, Hh, Hempty, dom_empty_L. set_solver.
  - apply Forall_forall. intros k Hk. apply elem_of_seqZ in Hk. lia.
Qed.

Lemma consistent_size (self : state) :
  consistent self ->
  size (items (tk self)) = length (particles self).
Proof.
  intros (Hnd & Hdom & _).
  rewrite <- size_dom, Hdom, size_list_to_set by exact Hnd.
  unfold handles. apply length_map.
Qed.

(** ** The canvas and the list stay in step *)

(** X1.  Starting from the widget as [__init__] builds it on an empty
    canvas, after any sequence of ticks, resizes, [set_particle_count] and
    [reseed] calls the canvas holds exactly one oval per particle: no two
    particles share a handle, every handle names a live item, and the number
    of items equals the number of particles. *)
Theorem canvas_holds_one_oval_per_particle
    (particle_count : Z) (e : env) (ops : list op) :
  items e = ∅ ->
  NoDup (handles (particles (run_ops ops (__init__ particle_count e)))) /\
  (forall p, p ∈ particles (run_ops ops (__init__ particle_count e)) ->
             is_Some (items (tk (run_ops ops (__init__ particle_count e)))
                        !! p_id p)) /\
  size (items (tk (run_ops ops (__init__ particle_count e))))
  = length (particles (run_ops ops (__init__ particle_count e))).
Proof.
  intros Hempty.
  destruct (run_ops_consistent ops _ (init_consistent particle_count e Hempty))
    as [Hc _].
  split; [exact (proj1 Hc) |]. split; [| apply consistent_size; exact Hc].
  intros p Hp. destruct Hc as (_ & Hdom & _).
  apply elem_of_dom. rewrite Hdom. apply elem_of_list_to_set.
  unfold handles. apply list_elem_of_fmap. exists p. auto.
Qed.

Lemma canvas_holds_one_oval_per_particle_witness :
  size (items (tk (run_ops [op_tick; op_set_count 7; op_reseed; op_tick]
                     (__init__ 9 empty_window))))
  = length (particles (run_ops [op_tick; op_set_count 7; op_reseed; op_tick]
                         (__init__ 9 empty_window))).
Proof.
  apply (canvas_holds_one_oval_per_particle 9 empty_window
           [op_tick; op_set_count 7; op_reseed; op_tick]).
  reflexivity.
Defined.

(** X2.  Once a tick has run on a consistent widget, every particle's oval
    sits at the particle's position, with the particle's size and colour,
    and this stays so under any further ticks, resizes, [set_particle_count]
    and [reseed] calls. *)
Theorem ovals_follow_particles (self : state) (ops : list op) :
  consistent self ->
  Forall (fun p =>
            items (tk (run_ops (op_tick :: ops) self)) !! p_id p
            = Some (mk_item (p_x p, p_y p,
                             (p_x p + inject_Z (p_size p))%Q,
                             (p_y p + inject_Z (p_size p))%Q)
                      (p_color p) ""))
    (particles (run_ops (op_tick :: ops) self)).
Proof.
  intros Hc. destruct (animate_consistent self Hc) as [Hc1 Hd1].
  destruct (run_ops_consistent ops (_animate self) Hc1) as [_ Hd].
  exact (Hd Hd1).
Qed.

Lemma ovals_follow_particles_witness :
  Forall (fun p =>
            items (tk (run_ops [op_tick; op_set_count 12; op_resize (mk_event 80 60)]
                         (__init__ 9 empty_window))) !! p_id p
            = Some (mk_item (p_x p, p_y p,
                             (p_x p + inject_Z (p_size p))%Q,
                             (p_y p + inject_Z (p_size p))%Q)
                      (p_color p) ""))
    (particles (run_ops [op_tick; op_set_count 12; op_resize (mk_event 80 60)]
                  (__init__ 9 empty_window))).
Proof.
  apply (ovals_follow_particles (__init__ 9 empty_window)
           [op_set_count 12; op_resize (mk_event 80 60)]).
  apply init_consistent. reflexivity.
Defined.

(** ** What ticks leave alone *)

Lemma Qopp_opp_eq (q : Q) : (- - q)%Q = q.
Proof. destruct q as [a b]. unfold Qopp. cbn. f_equal. lia. Qed.

Lemma same_body_refl (p : particle) : same_body p p.
Proof. unfold same_body. repeat split; auto. Qed.

Lemma same_body_trans (p q r : particle) :
  same_body p q -> same_body q r -> same_body p r.
Proof.
  intros (H1 & H2 & H3 & H4 & H5) (G1 & G2 & G3 & G4 & G5).
  unfold same_body. repeat split; try congruence.
  destruct H5 as [H5 | H5], G5 as [G5 | G5]; rewrite G5, H5;
    rewrite ?Qopp_opp_eq; auto.
Qed.

Lemma tick_step_same_body (width height : Z) (p p' : particle) :
  tick_step width height p p' -> same_body p p'.
Proof.
  intros (Hdx & Hdy & Hs & Hc & Hid & _). unfold same_body.
  repeat split; try assumption.
  rewrite Hdx. destruct (bounces width p); auto.
Qed.

Lemma Forall2_trans_rel {A : Type} (R : A -> A -> Prop) (l k m : list A) :
  (forall a b c, R a b -> R b c -> R a c) ->
  Forall2 R l k -> Forall2 R k m -> Forall2 R l m.
Proof.
  intros Htrans H. revert m. induction H as [|a b l k Hab _ IH]; intros m Hm.
  - inversion Hm. constructor.
  - inversion Hm; subst. constructor; [eapply Htrans; eassumption | auto].
Qed.

Lemma animate_frame (self : state) :
  desired_count (_animate self) = desired_count self /\
  after_log (tk (_animate self)) = after_log (tk self) ++ [(35, "_animate")] /\
  next_item (tk (_animate self)) = next_item (tk self) /\
  dom (items (tk (_animate self))) = dom (items (tk self)) /\
  Forall2 same_body (particles self) (particles (_animate self)).
Proof.
  destruct (animate_loop self) as (Hp & Hd & Hi & Hn & Hl).
  destruct (for_each_redraws _
              (animate_particle_redraws (tick_width self) (tick_height self))
              (particles self) (tk self)) as (_ & _ & Hn' & Hl' & Hd' & _).
  rewrite Hd, Hl, Hn, Hi, Hn', Hl', Hd'. repeat split.
  eapply Forall2_impl; [apply ParticleCanvasProofs.animate_tick_step |].
  intros p p'. apply tick_step_same_body.
Qed.

(** X3.  Any number of ticks leaves the number and order of the particles,
    the wanted count and the set of canvas items as they are; a particle
    keeps its size, colour, handle and vertical velocity, and its horizontal
    velocity changes at most in sign.  Each tick asks for the next one,
    35 ms later, exactly once. *)
Theorem ticks_keep_particles (n : nat) (self : state) :
  desired_count (ticks n self) = desired_count self /\
  after_log (tk (ticks n self))
  = after_log (tk self) ++ repeat (35, "_animate") n /\
  next_item (tk (ticks n self)) = next_item (tk self) /\
  dom (items (tk (ticks n self))) = dom (items (tk self)) /\
  Forall2 same_body (particles self) (particles (ticks n self)).
Proof.
  revert self. induction n as [|n IH]; intros self.
  - cbn. rewrite app_nil_r. repeat split.
    apply Forall_Forall2_diag. apply Forall_forall. intros p _.
    apply same_body_refl.
  - change (ticks (S n) self) with (ticks n (_animate self)).
    destruct (IH (_animate self)) as (H1 & H2 & H3 & H4 & H5).
    destruct (animate_frame self) as (G1 & G2 & G3 & G4 & G5).
    rewrite H1, H2, H3, H4, G1, G2, G3, G4, <- app_assoc.
    repeat split.
    eapply Forall2_trans_rel; [apply same_body_trans | exact G5 | exact H5].
Qed.

(** ** New particles *)

Lemma Q_clamp_range (a b r : Q) :
  (a <= b)%Q -> (a <= Qmax a (Qmin b r) <= b)%Q.
Proof.
  intros H. split; [apply Q.le_max_l |].
  apply Q.max_lub; [exact H | apply Q.le_min_l].
Qed.

Lemma choice_palette (e : env) : fst (choice NEON_COLORS e) ∈ NEON_COLORS.
Proof.
  unfold choice. cbn [fst].
  pose proof (Z.mod_pos_bound (hd 0 (int_draws (rng e)))
                (Z.of_nat (length NEON_COLORS)) ltac:(cbn; lia)) as Hk.
  apply list_elem_of_In. apply nth_In. cbn [length] in *. lia.
Qed.


Lemma place_new_particle_inside (e : env) :
  inside (fst (width_or_1 e)) (fst (height_or_1 e)) (fst (place_new_particle e)) /\
  as_created (fst (place_new_particle e)) /\
  winfo_width (snd (place_new_particle e)) = winfo_width e /\
  winfo_height (snd (place_new_particle e)) = winfo_height e.
Proof.
  assert (Hw : 0 <= fst (width_or_1 e)).
  { unfold width_or_1. cbn. destruct (N.eqb_spec (winfo_width e) 0); lia. }
  assert (Hh : 0 <= fst (height_or_1 e)).
  { unfold height_or_1. cbn. destruct (N.eqb_spec (winfo_height e) 0); lia. }
  pose proof (ParticleCanvasProofs.create_particle_as_created e)
    as (_ & _ & Hc).
  unfold place_new_particle, St.bind.
  destruct (_create_particle e) as [p e1] eqn:Hcreate.
  assert (Hgeo : winfo_width e1 = winfo_width e /\ winfo_height e1 = winfo_height e).
  { unfold _create_particle, St.bind in Hcreate. cbn in Hcreate.
    injection Hcreate as _ <-. split; reflexivity. }
  destruct Hgeo as [Hgw Hgh]. cbn [fst] in Hc.
  unfold width_or_1, height_or_1 in *. cbn [fst snd] in *.
  rewrite Hgw, Hgh. cbn.
  split; [| split; [exact Hc | split; assumption]].
  eexists _, _. split; [| split; [| split; reflexivity]].
  - match goal with
    | |- 0 <= 0 + ?k mod ?m <= _ => pose proof (Z.mod_pos_bound k m); lia
    end.
  - match goal with
    | |- 0 <= 0 + ?k mod ?m <= _ => pose proof (Z.mod_pos_bound k m); lia
    end.
Qed.

Lemma grow_added (fuel : nat) :
  forall (current count : Z) (ps : list particle) (e : env),
    exists added,
      snd (fst (grow fuel current count ps e)) = ps ++ added /\
      Forall (fun p => inside (fst (width_or_1 e)) (fst (height_or_1 e)) p
                       /\ as_created p) added.
Proof.
  induction fuel as [|fuel IH]; intros current count ps e.
  - exists []. cbn. rewrite app_nil_r. auto.
  - cbn [grow]. destruct (current <? count);
      [| exists []; cbn; rewrite app_nil_r; auto].
    unfold St.bind.
    destruct (place_new_particle_inside e) as (Hin & Hc & Hgw & Hgh).
    destruct (place_new_particle e) as [p e1]. cbn [fst snd] in *.
    destruct (IH (current + 1) count (ps ++ [p]) e1) as (added & Hres & Hall).
    exists (p :: added). rewrite Hres, <- app_assoc. split; [reflexivity |].
    constructor; [auto |].
    unfold width_or_1, height_or_1 in *. cbn [fst] in *.
    rewrite Hgw, Hgh in Hall. exact Hall.
Qed.

Lemma set_particle_count_places_inside_aux (n : Z) (self : state) :
  exists added,
    particles (set_particle_count n self)
    = take (Z.to_nat (clamp_count n)) (particles self) ++ added /\
    Forall (fun p => inside (tick_width self) (tick_height self) p
                     /\ as_created p) added.
Proof.
  rewrite ParticleCanvasProofs.set_particle_count_loops. cbn zeta.
  set (c := clamp_count n).
  set (len := Z.of_nat (length (particles self))).
  destruct (Z.le_gt_cases len c) as [Hle | Hgt].
  - destruct (ParticleCanvasProofs.grow_spec (Z.to_nat (c - len)) len c
                (particles self) (tk self) (le_n _))
      as (added' & Hgrow & _).
    destruct (grow_added (Z.to_nat (c - len)) len c (particles self) (tk self))
      as (added & Hres & Hall).
    exists added. rewrite Hgrow in *. cbn [fst snd] in *.
    rewrite ParticleCanvasProofs.shrink_done by lia. cbn [fst snd].
    rewrite Hres, take_ge by (unfold len in Hle; lia).
    split; [reflexivity | exact Hall].
  - exists []. rewrite ParticleCanvasProofs.grow_done by lia. cbn [fst snd].
    destruct (ParticleCanvasProofs.shrink_spec (Z.to_nat (len - c)) len c
                (particles self) (tk self) eq_refl
                ltac:(pose proof (ParticleCanvasProofs.clamp_count_range n);
                      unfold c; lia) (le_n _)) as (Hres & _).
    rewrite Hres. cbn [fst snd].
    replace (Z.min len c) with c by lia. rewrite app_nil_r.
    split; [reflexivity | constructor].
Qed.


Lemma scatter_inside (width height : Z) (self : state) :
  1 < width -> 1 < height ->
  Forall (inside width height) (particles (_scatter_particles width height self)) /\
  same_geometry (tk self) (tk (_scatter_particles width height self)).
Proof.
  intros Hw Hh. unfold _scatter_particles.
  assert (Hb : (width <=? 1) || (height <=? 1) = false).
  { apply orb_false_iff. split; apply Z.leb_gt; assumption. }
  rewrite Hb.
  pose proof (ParticleCanvasProofs.for_each_Forall2
                (scatter_particle width height)
                (fun _ p' => inside width height p')
                (same_geometry (tk self))) as HF.
  destruct (HF ltac:(
    intros p e He; split;
      [ exists (fst (randint 0 width e)),
               (fst (randint 0 height (snd (randint 0 width e))));
        split; [apply ParticleCanvasProofs.randint_range; lia |];
        split; [apply ParticleCanvasProofs.randint_range; lia |];
        split; reflexivity
      | exact He ]) (particles self) (tk self)
      (ParticleCanvasProofs.same_geometry_refl _)) as [HR HG].
  destruct (for_each _ (particles self) (tk self)) as [ps e1].
  cbn [fst snd particles tk] in *. split; [| exact HG].
  clear HF. induction HR; constructor; auto.
Qed.

Lemma scatter_desired_count (width height : Z) (self : state) :
  desired_count (_scatter_particles width height self) = desired_count self.
Proof.
  unfold _scatter_particles. destruct ((width <=? 1) || (height <=? 1));
    [reflexivity |].
  destruct (for_each _ (particles self) (tk self)). reflexivity.
Qed.

(** X6.  [reseed] leaves exactly clamp(desired_count, 5, 150) particles and
    stores that number as the wanted count; when the window is laid out
    (both sides larger than 1) every particle then stands on an integer
    position inside the window. *)
Theorem reseed_fills_window (self : state) :
  Z.of_nat (length (particles (reseed self)))
  = clamp_count (desired_count self) /\
  desired_count (reseed self) = clamp_count (desired_count self) /\
  ((1 < winfo_width (tk self))%N -> (1 < winfo_height (tk self))%N ->
   Forall (inside (Z.of_N (winfo_width (tk self)))
             (Z.of_N (winfo_height (tk self))))
     (particles (reseed self))).
Proof.
  unfold reseed.
  set (w := fst (width_or_1 (tk self))).
  set (h := fst (height_or_1 (tk self))).
  set (s1 := _scatter_particles w h self).
  assert (Hd : desired_count s1 = desired_count self)
    by apply scatter_desired_count.
  rewrite Hd.
  split; [apply ParticleCanvasProofs.set_particle_count_length |].
  split; [apply ParticleCanvasProofs.set_particle_count_desired |].
  intros Hw Hh.
  assert (Hw' : w = Z.of_N (winfo_width (tk self))).
  { unfold w, width_or_1. cbn.
    destruct (N.eqb_spec (winfo_width (tk self)) 0); [lia | reflexivity]. }
  assert (Hh' : h = Z.of_N (winfo_height (tk self))).
  { unfold h, height_or_1. cbn.
    destruct (N.eqb_spec (winfo_height (tk self)) 0); [lia | reflexivity]. }
  destruct (scatter_inside w h self ltac:(lia) ltac:(lia)) as [Hin [Hgw Hgh]].
  fold s1 in Hin, Hgw, Hgh.
  destruct (set_particle_count_places_inside_aux (desired_count self) s1)
    as (added & -> & Hadded).
  rewrite <- Hw', <- Hh'. apply Forall_app. split.
  - apply Forall_take. exact Hin.
  - eapply Forall_impl; [exact Hadded |]. intros p [Hp _].
    unfold tick_width, tick_height, width_or_1, height_or_1 in Hp.
    cbn [fst] in Hp. rewrite Hgw, Hgh in Hp.
    unfold w, h, width_or_1, height_or_1. cbn [fst]. exact Hp.
Qed.

Lemma reseed_fills_window_witness :
  Forall (inside 300 200) (particles (reseed (__init__ 9 empty_window))).
Proof.
  apply (proj2 (proj2 (reseed_fills_window (__init__ 9 empty_window))));
    reflexivity.
Defined.

End ParticleCanvasInvariants.

(** * Further properties of the application *)

Module TranslatorAppBehaviour.
Import Str TranslatorApp.

(** ** Stripping and counting *)

Lemma lstrip_split (f : N -> bool) (s : str) :
  exists d, s = d ++ lstrip f s /\ Forall (fun c => f c = true) d.
Proof.
  induction s as [|c s IH]; [exists []; auto |].
  cbn [lstrip]. destruct (f c) eqn:Hc.
  - destruct IH as (d & Hs & Hd). exists (c :: d).
    split; [cbn; congruence | constructor; assumption].
  - exists []. auto.
Qed.

Lemma lstrip_head (f : N -> bool) (s : str) :
  lstrip f s = [] \/ exists c r, lstrip f s = c :: r /\ f c = false.
Proof.
  induction s as [|c s IH]; [left; reflexivity |].
  cbn [lstrip]. destruct (f c) eqn:Hc; [exact IH |].
  right. exists c, s. auto.
Qed.

Lemma lstrip_fixed (f : N -> bool) (c : N) (r : str) :
  f c = false -> lstrip f (c :: r) = c :: r.
Proof. intros H. cbn. rewrite H. reflexivity. Qed.

Lemma lstrip_nil_iff (f : N -> bool) (s : str) :
  lstrip f s = [] <-> Forall (fun c => f c = true) s.
Proof.
  induction s as [|c s IH]; [split; auto |].
  cbn [lstrip]. destruct (f c) eqn:Hc.
  - rewrite IH. split; [intros H; constructor; assumption |].
    intros H. inversion H. assumption.
  - split; [discriminate |]. intros H. inversion H. congruence.
Qed.

(** [strip_with] removes a run of droppable characters on either side. *)
Lemma strip_with_split (f : N -> bool) (s : str) :
  exists d1 d2,
    s = d1 ++ strip_with f s ++ d2 /\
    Forall (fun c => f c = true) d1 /\ Forall (fun c => f c = true) d2.
Proof.
  unfold strip_with.
  destruct (lstrip_split f s) as (d1 & Hs & Hd1).
  destruct (lstrip_split f (rev (lstrip f s))) as (d2 & Ht & Hd2).
  exists d1, (rev d2). split; [| split; [exact Hd1 |]].
  - rewrite <- rev_app_distr, <- Ht, rev_involutive. exact Hs.
  - apply Forall_rev. exact Hd2.
Qed.

Lemma strip_with_nil_iff (f : N -> bool) (s : str) :
  strip_with f s = [] <-> Forall (fun c => f c = true) s.
Proof.
  split.
  - intros H. destruct (strip_with_split f s) as (d1 & d2 & Hs & H1 & H2).
    rewrite H in Hs. rewrite Hs. apply Forall_app. auto.
  - intros H. unfold strip_with.
    apply (proj2 (lstrip_nil_iff f s)) in H. rewrite H. reflexivity.
Qed.

Lemma strip_with_idempotent (f : N -> bool) (s : str) :
  strip_with f (strip_with f s) = strip_with f s.
Proof.
  unfold strip_with at 2 3.
  destruct (lstrip_split f (rev (lstrip f s))) as (d2 & Ht & _).
  destruct (lstrip_head f (rev (lstrip f s))) as [Hu | (c & r & Hu & Hc)].
  - rewrite Hu. reflexivity.
  - rewrite Hu in *. set (u := c :: r) in *.
    assert (Hfront : lstrip f s = rev u ++ rev d2).
    { rewrite <- rev_app_distr, <- Ht, rev_involutive. reflexivity. }
    assert (Hfix : lstrip f (rev u) = rev u).
    { destruct (lstrip_head f s) as [Hnil | (c' & r' & Hl & Hc')].
      - rewrite Hnil in Hfront. symmetry in Hfront.
        apply app_eq_nil in Hfront. destruct Hfront as [-> _]. reflexivity.
      - destruct (rev u) as [|x y] eqn:Hru.
        + reflexivity.
        + rewrite Hl in Hfront. cbn in Hfront. injection Hfront as <- _.
          apply lstrip_fixed. exact Hc'. }
    unfold strip_with. rewrite Hfix, rev_involutive.
    unfold u. rewrite lstrip_fixed by exact Hc. reflexivity.
Qed.

Lemma strip_idempotent (s : str) : strip (strip s) = strip s.
Proof. unfold strip. apply strip_with_idempotent. Qed.

Lemma count_words_zero_iff (s : str) :
  count_words false s = O <-> Forall (fun c => isspace c = true) s.
Proof.
  induction s as [|c s IH]; [split; auto |].
  cbn [count_words]. destruct (isspace c) eqn:Hc.
  - rewrite IH. split; [intros H; constructor; assumption |].
    intros H. inversion H. assumption.
  - split; [discriminate |]. intros H. inversion H. congruence.
Qed.

Lemma count_words_le_length (s : str) :
  forall in_word, (count_words in_word s <= length s)%nat.
Proof.
  induction s as [|c s IH]; intros in_word; cbn [count_words length]; [lia |].
  destruct (isspace c); [specialize (IH false); lia |].
  destruct in_word; [specialize (IH true); lia |].
  specialize (IH true). lia.
Qed.

Lemma newline_isspace (c : N) : (c =? 10)%N = true -> isspace c = true.
Proof. intros H. apply N.eqb_eq in H. subst c. reflexivity. Qed.


(** ** What reaches the translation service *)

Section Service.

Variable LANGUAGE_MAP : gmap string string.

Local Abbreviation translate := (TranslatorApp.translate LANGUAGE_MAP).
Local Abbreviation dispatch := (TranslatorApp.dispatch LANGUAGE_MAP).
Local Abbreviation run_until := (TranslatorApp.run_until LANGUAGE_MAP).
Local Abbreviation key_release := (TranslatorApp.key_release LANGUAGE_MAP).
Local Abbreviation perform := (TranslatorApp.perform LANGUAGE_MAP).
Local Abbreviation perform_all := (TranslatorApp.perform_all LANGUAGE_MAP).
Local Abbreviation args_ok := (worker_args_ok LANGUAGE_MAP).

Lemma source_code_known (name code : string) :
  source_code LANGUAGE_MAP name = Some code ->
  code = "auto" \/ exists name', LANGUAGE_MAP !! name' = Some code.
Proof.
  unfold source_code. destruct (String.eqb name "Auto Detect").
  - intros H. injection H as <-. left. reflexivity.
  - intros H. right. exists name. exact H.
Qed.

(** A call of [translate] starts no thread or one, with good arguments. *)
Lemma translate_workers (a : app) :
  workers (translate a) = workers a
  \/ exists args, workers (translate a) = workers a ++ [args] /\ args_ok args.
Proof.
  unfold TranslatorApp.translate.
  destruct (strip (source_text a)) as [|c text] eqn:Hstrip; [left; reflexivity |].
  destruct (source_code LANGUAGE_MAP (source_lang_var a)) as [src |] eqn:Hsrc;
    [| left; reflexivity].
  destruct (LANGUAGE_MAP !! target_lang_var a) as [tgt |] eqn:Htgt;
    [| left; reflexivity].
  right. exists (c :: text, src, tgt). split; [reflexivity |].
  split; [discriminate |]. split.
  - rewrite <- Hstrip. apply strip_with_idempotent.
  - split; [eapply source_code_known; exact Hsrc |].
    exists (target_lang_var a). exact Htgt.
Qed.

Lemma translate_starts (a : app) (src tgt : string) :
  strip (source_text a) <> [] ->
  source_code LANGUAGE_MAP (source_lang_var a) = Some src ->
  LANGUAGE_MAP !! target_lang_var a = Some tgt ->
  workers (translate a) = workers a ++ [(strip (source_text a), src, tgt)].
Proof.
  intros Htext Hsrc Htgt. unfold TranslatorApp.translate.
  destruct (strip (source_text a)) as [|c text]; [congruence |].
  rewrite Hsrc, Htgt. reflexivity.
Qed.

Lemma translate_workers_ok (a : app) :
  Forall args_ok (workers a) -> Forall args_ok (workers (translate a)).
Proof.
  intros H. destruct (translate_workers a) as [-> | (args & -> & Hargs)];
    [exact H |].
  apply Forall_app. split; [exact H | repeat constructor; exact Hargs].
Qed.

Lemma on_input_change_workers (a : app) :
  workers (_on_input_change a) = workers a.
Proof.
  unfold _on_input_change. cbn. destruct (typing_job a); reflexivity.
Qed.

Lemma dispatch_workers_ok (t : Z) (a a' : app) :
  dispatch t a = Some a' ->
  Forall args_ok (workers a) -> Forall args_ok (workers a').
Proof.
  unfold TranslatorApp.dispatch. destruct (earliest (timers a)) as [tm |];
    [| discriminate].
  destruct (tm_due tm <=? t); [| discriminate].
  intros H Hok. injection H as <-.
  destruct (tm_callback tm); cbn [run_callback].
  - apply translate_workers_ok. exact Hok.
  - rewrite on_input_change_workers. exact Hok.
Qed.

Lemma run_until_workers_ok (fuel : nat) (t : Z) :
  forall a, Forall args_ok (workers a) ->
            Forall args_ok (workers (run_until fuel t a)).
Proof.
  induction fuel as [|fuel IH]; intros a Hok; [exact Hok |].
  cbn [TranslatorApp.run_until].
  destruct (dispatch t a) as [a' |] eqn:Hd; [| exact Hok].
  apply IH. eapply dispatch_workers_ok; eassumption.
Qed.

Lemma perform_workers_ok (fuel : nat) (act : action) (a : app) :
  Forall args_ok (workers a) -> Forall args_ok (workers (perform fuel act a)).
Proof.
  intros Hok. destruct act as [t text | | | t]; cbn [TranslatorApp.perform].
  - unfold TranslatorApp.key_release.
    rewrite on_input_change_workers. cbn [workers].
    apply run_until_workers_ok. exact Hok.
  - apply translate_workers_ok. exact Hok.
  - unfold swap_languages.
    destruct (String.eqb (source_lang_var a) "Auto Detect"); exact Hok.
  - apply run_until_workers_ok. exact Hok.
Qed.

(** X8.  Whatever the user types, swaps and clicks and whenever timers fire,
    a translation thread is only ever started with text that is not blank
    and carries no white space around it, with a target code taken from the
    language table and a source code that is "auto" or taken from it. *)
Theorem workers_get_clean_arguments (fuel : nat) (acts : list action) (a : app) :
  workers a = [] ->
  Forall (fun args =>
            fst (fst args) <> [] /\
            strip (fst (fst args)) = fst (fst args) /\
            (snd (fst args) = "auto"
             \/ exists name, LANGUAGE_MAP !! name = Some (snd (fst args))) /\
            (exists name, LANGUAGE_MAP !! name = Some (snd args)))
    (workers (perform_all fuel acts a)).
Proof.
  intros Hnone.
  assert (H : Forall args_ok (workers (perform_all fuel acts a))).
  { assert (H0 : Forall args_ok (workers a)) by (rewrite Hnone; constructor).
    clear Hnone. revert a H0.
    induction acts as [|act acts IH]; intros a H0; [exact H0 |].
    apply (IH (perform fuel act a)). apply perform_workers_ok. exact H0. }
  eapply Forall_impl; [exact H |]. intros [[text src] tgt] Hargs. exact Hargs.
Qed.

(** ** At most one timer while typing *)

Lemma dispatch_settled (t : Z) (a a' : app) :
  settled a -> dispatch t a = Some a' -> timers a' = [].
Proof.
  intros [Hnone | (id & due & Ht & _)] Hd.
  - rewrite (TranslatorAppProofs.dispatch_idle LANGUAGE_MAP t a Hnone) in Hd.
    discriminate.
  - unfold TranslatorApp.dispatch in Hd. rewrite Ht in Hd.
    cbn [earliest tm_due tm_id tm_callback] in Hd.
    destruct (due <=? t); [| discriminate]. injection Hd as <-.
    cbn [run_callback].
    match goal with
    | |- timers (TranslatorApp.translate _ ?x) = [] =>
        destruct (TranslatorAppProofs.translate_frame LANGUAGE_MAP x)
          as (_ & -> & _)
    end.
    cbn [timers]. eapply TranslatorAppProofs.after_cancel_single. exact Ht.
Qed.

Lemma run_until_settled (fuel : nat) (t : Z) :
  forall a, settled a -> settled (run_until fuel t a).
Proof.
  induction fuel as [|fuel IH]; intros a Hs; [exact Hs |].
  cbn [TranslatorApp.run_until].
  destruct (dispatch t a) as [a' |] eqn:Hd; [| exact Hs].
  apply IH. left. eapply dispatch_settled; eassumption.
Qed.

Lemma on_input_change_settled (a : app) :
  settled a -> settled (_on_input_change a).
Proof.
  intros Hs. right. unfold _on_input_change.
  exists (next_after a), (now a + auto_translate_delay).
  destruct Hs as [Hnone | (id & due & Ht & Hjob)].
  - cbn. destruct (typing_job a); cbn; rewrite Hnone; cbn; auto.
  - cbn. rewrite Hjob. cbn. rewrite Ht.
    rewrite filter_cons_False by (cbn; auto). cbn. auto.
Qed.

Lemma perform_settled (fuel : nat) (act : action) (a : app) :
  is_typing act = true -> settled a -> settled (perform fuel act a).
Proof.
  intros Hty Hs. destruct act as [t text | | | t]; cbn [TranslatorApp.perform].
  - unfold TranslatorApp.key_release.
    pose proof (run_until_settled fuel t a Hs) as H.
    apply on_input_change_settled. exact H.
  - discriminate.
  - unfold swap_languages.
    destruct (String.eqb (source_lang_var a) "Auto Detect"); exact Hs.
  - apply run_until_settled. exact Hs.
Qed.

(** X9.  As long as the user only types, swaps languages and waits (no
    direct call of [translate]), at most one timer is pending at any time;
    it is an auto-translate timer and [typing_job] holds its id. *)
Theorem typing_keeps_one_timer (fuel : nat) (acts : list action) (a : app) :
  timers a = [] ->
  forallb is_typing acts = true ->
  (length (timers (perform_all fuel acts a)) <= 1)%nat /\
  (forall tm, tm ∈ timers (perform_all fuel acts a) ->
              tm_callback tm = cb_translate /\
              typing_job (perform_all fuel acts a) = Some (tm_id tm)).
Proof.
  intros Hnone Hty.
  assert (H : settled (perform_all fuel acts a)).
  { assert (H0 : settled a) by (left; exact Hnone).
    clear Hnone. revert a H0.
    induction acts as [|act acts IH]; intros a H0; [exact H0 |].
    cbn in Hty. apply andb_true_iff in Hty. destruct Hty as [Hact Hacts].
    apply (IH Hacts (perform fuel act a)). apply perform_settled; assumption. }
  destruct H as [-> | (id & due & -> & Hjob)].
  - split; [cbn; lia |]. intros tm Htm. inversion Htm.
  - split; [cbn; lia |]. intros tm Htm.
    apply list_elem_of_singleton in Htm. subst tm. auto.
Qed.

(** ** Swapping the languages *)

(** X10.  [swap_languages] refuses while the source is "Auto Detect" and
    changes neither language then; otherwise it exchanges the two names, so
    that the next translation goes the other way, and a second swap restores
    the state exactly (the target never being "Auto Detect"). *)
Theorem swap_languages_exchanges (a : app) :
  (source_lang_var a = "Auto Detect" ->
   source_lang_var (swap_languages a) = source_lang_var a /\
   target_lang_var (swap_languages a) = target_lang_var a /\
   status_var (swap_languages a) = "Cannot swap while source is Auto Detect.") /\
  (source_lang_var a <> "Auto Detect" ->
   source_lang_var (swap_languages a) = target_lang_var a /\
   target_lang_var (swap_languages a) = source_lang_var a /\
   (target_lang_var a <> "Auto Detect" ->
    swap_languages (swap_languages a) = a /\
    forall s t,
      LANGUAGE_MAP !! source_lang_var a = Some s ->
      LANGUAGE_MAP !! target_lang_var a = Some t ->
      strip (source_text a) <> [] ->
      workers (translate (swap_languages a))
      = workers a ++ [(strip (source_text a), t, s)])).
Proof.
  unfold swap_languages. split.
  - intros H. rewrite H. cbn. auto.
  - intros Hsrc. apply String.eqb_neq in Hsrc. rewrite Hsrc. cbn.
    split; [reflexivity |]. split; [reflexivity |].
    intros Htgt. apply String.eqb_neq in Htgt. rewrite Htgt.
    split; [destruct a; reflexivity |].
    intros s t Hs Ht Htext.
    rewrite (translate_starts _ t s); [reflexivity | exact Htext | |].
    + unfold source_code. cbn [source_lang_var]. rewrite Htgt. exact Ht.
    + exact Hs.
Qed.

End Service.

Lemma workers_get_clean_arguments_witness :
  Forall (fun args =>
            fst (fst args) <> [] /\
            strip (fst (fst args)) = fst (fst args) /\
            (snd (fst args) = "auto"
             \/ exists name, two_languages !! name = Some (snd (fst args))) /\
            (exists name, two_languages !! name = Some (snd args)))
    (workers (perform_all two_languages 3
                [act_key 10 [32; 104; 105; 32; 10]%N; act_translate;
                 act_idle 900; act_key 950 [10]%N; act_translate]
                idle_app)).
Proof.
  apply (workers_get_clean_arguments two_languages 3
           [act_key 10 [32; 104; 105; 32; 10]%N; act_translate;
            act_idle 900; act_key 950 [10]%N; act_translate] idle_app).
  reflexivity.
Defined.

Lemma typing_keeps_one_timer_witness :
  (length (timers (perform_all two_languages 3
                     [act_key 10 [104; 10]%N; act_key 700 [104; 105; 10]%N;
                      act_swap; act_idle 1000; act_key 1500 [10]%N]
                     idle_app)) <= 1)%nat.
Proof.
  apply (typing_keeps_one_timer two_languages 3
           [act_key 10 [104; 10]%N; act_key 700 [104; 105; 10]%N;
            act_swap; act_idle 1000; act_key 1500 [10]%N] idle_app);
    reflexivity.
Defined.

Lemma swap_languages_exchanges_witness :
  swap_languages (swap_languages english_app) = english_app /\
  workers (translate two_languages (swap_languages english_app))
  = workers english_app ++ [(strip (source_text english_app), "es", "en")].
Proof.
  destruct (proj2 (swap_languages_exchanges two_languages english_app)
              ltac:(discriminate)) as (_ & _ & H).
  destruct (H ltac:(discriminate)) as [H1 H2].
  split; [exact H1 |].
  apply H2; [reflexivity | reflexivity | vm_compute; discriminate].
Defined.

(** ** A worker whose call returns *)

Local Ltac solve_step :=
  repeat split; intros; first [lia | discriminate].

Lemma success_state_step (w : worker) (r : translated) (t : turn) (i : nat) :
  exists j,
    run [t] (success_state w r i) = success_state w r j /\
    (i <= j)%nat /\
    (t = worker_turn -> (i < 2)%nat -> j = S i) /\
    (t = ui_turn -> (2 <= i)%nat -> (3 <= j)%nat).
Proof.
  destruct i as [|[|[|i]]]; destruct t; destruct w; cbn;
    first [ exists 0%nat; split; [reflexivity | solve_step]
          | exists 1%nat; split; [reflexivity | solve_step]
          | exists 2%nat; split; [reflexivity | solve_step]
          | exists (3 + i)%nat; split; [reflexivity | solve_step]
          | exists 3%nat; split; [reflexivity | solve_step] ].
Qed.

Lemma success_state_run (w : worker) (r : translated) (schedule : list turn) :
  forall i, exists j,
    run schedule (success_state w r i) = success_state w r j /\
    (Nat.min 2 (i + worker_turns schedule) <= j)%nat /\ (i <= j)%nat.
Proof.
  induction schedule as [|t schedule IH]; intros i.
  - exists i. split; [reflexivity | cbn [worker_turns]; lia].
  - destruct (success_state_step w r t i) as (k & Hk & Hle & Hw & _).
    destruct (IH k) as (j & Hj & Hmin & Hkj).
    exists j. split.
    + change (run (t :: schedule) (success_state w r i))
        with (run schedule (run [t] (success_state w r i))).
      rewrite Hk. exact Hj.
    + split; [| lia]. destruct t; cbn [worker_turns].
      * destruct (Nat.lt_ge_cases i 2) as [Hlt | Hge].
        -- rewrite (Hw eq_refl Hlt) in Hmin. lia.
        -- lia.
      * lia.
Qed.

Lemma success_state_log (w : worker) (r : translated) (i : nat) :
  m_log (success_state w r i)
  = if (i <? 3)%nat then [] else [success_event w r].
Proof. destruct i as [|[|[|i]]]; reflexivity. Qed.

Lemma run_app (s1 s2 : list turn) (m : machine) :
  run (s1 ++ s2) m = run s2 (run s1 m).
Proof. unfold run. apply fold_left_app. Qed.

(** X11.  When the worker's call returns, the UI thread never sees
    anything but the success callback, run at most once, whatever the
    interleaving; and once the worker has taken its two steps, the next turn
    of the UI thread has delivered the callback, for the translation worker
    with the value the call returned. *)
Theorem worker_success_delivered_once
    (w : worker) (r : translated) (schedule : list turn) :
  (m_log (run schedule (spawn w (Returns r))) = []
   \/ m_log (run schedule (spawn w (Returns r))) = [success_event w r]) /\
  ((2 <= worker_turns schedule)%nat ->
   m_log (run (schedule ++ [ui_turn]) (spawn w (Returns r)))
   = [success_event w r]).
Proof.
  destruct (success_state_run w r schedule 0) as (j & Hj & Hmin & _).
  change (success_state w r 0) with (spawn w (Returns r)) in Hj.
  split.
  - rewrite Hj, success_state_log. destruct (j <? 3)%nat; auto.
  - intros Hturns. rewrite run_app, Hj.
    destruct (success_state_step w r ui_turn j) as (k & Hk & _ & _ & Hui).
    rewrite Hk, success_state_log.
    assert (Hk3 : (3 <= k)%nat) by (apply Hui; [reflexivity | lia]).
    destruct (Nat.ltb_spec k 3); [lia | reflexivity].
Qed.

Lemma worker_success_delivered_once_witness :
  m_log (run ([ui_turn; worker_turn; ui_turn; worker_turn; worker_turn]
              ++ [ui_turn])
           (spawn translate_worker
              (Returns (mk_translated [104; 111; 108; 97]%N "en" "es"))))
  = [called_apply_translation (mk_translated [104; 111; 108; 97]%N "en" "es")].
Proof.
  apply (proj2 (worker_success_delivered_once translate_worker
                  (mk_translated [104; 111; 108; 97]%N "en" "es")
                  [ui_turn; worker_turn; ui_turn; worker_turn; worker_turn])).
  cbn. lia.
Defined.

(** X21.  When the worker's call raises, the success callback is never
    run, whatever the interleaving: the UI thread has run nothing yet, or
    the failure callback with the exception, or the closure that finds [exc]
    unbound, and never more than one of them. *)
Theorem worker_failure_never_reports_success
    (w : worker) (e : exn) (schedule : list turn) :
  (forall r, success_event w r ∉ m_log (run schedule (spawn w (Raises e)))) /\
  (length (m_log (run schedule (spawn w (Raises e)))) <= 1)%nat /\
  (m_log (run schedule (spawn w (Raises e))) = []
   \/ m_log (run schedule (spawn w (Raises e)))
      = [match w with
         | translate_worker => called_handle_error e
         | speak_worker => called_set_status ("TTS failed: " +:+ e)
         end]
   \/ m_log (run schedule (spawn w (Raises e))) = [raised_NameError "exc"]).
Proof.
  pose proof (TranslatorAppProofs.worker_failure_outcomes w e schedule) as H.
  assert (Hev : run_lambda (failure_lambda w) (mk_frame (Some e) None)
                = match w with
                  | translate_worker => called_handle_error e
                  | speak_worker => called_set_status ("TTS failed: " +:+ e)
                  end) by (destruct w; reflexivity).
  rewrite Hev in H.
  split; [| split; [| exact H]].
  - intros r Hin. destruct H as [H | [H | H]]; rewrite H in Hin.
    + inversion Hin.
    + apply list_elem_of_singleton in Hin. destruct w; cbn in Hin;
        discriminate.
    + apply list_elem_of_singleton in Hin. destruct w; discriminate.
  - destruct H as [-> | [-> | ->]]; cbn; lia.
Qed.

(** ** History previews *)

Lemma preview_length (s : str) : (length (preview s) <= 121)%nat.
Proof.
  unfold preview. destruct (Nat.ltb_spec 120 (length s)).
  - rewrite length_app, length_take. unfold ellipsis. cbn [length]. lia.
  - lia.
Qed.

Lemma deque_append_Forall {A : Type} (P : A -> Prop) (x : A) (d : deque A) :
  P x -> Forall P (elems d) -> Forall P (elems (deque_append x d)).
Proof.
  intros Hx Hd. unfold deque_append. cbn [elems].
  assert (H : Forall P (elems d ++ [x]))
    by (apply Forall_app; split; [exact Hd | repeat constructor; exact Hx]).
  destruct (maxlen d <? length (elems d ++ [x]))%nat; [| exact H].
  destruct (elems d ++ [x]); [constructor |]. inversion H. assumption.
Qed.

(** X12.  A preview is the text itself when it has at most 120 characters
    and otherwise its first 120 characters followed by an ellipsis; so every
    source and translation kept in the history has at most 121 characters,
    whatever was translated. *)
Theorem history_previews_short (calls : list (str * str * str * str)) (s : str) :
  ((length s <= 120)%nat -> preview s = s) /\
  ((120 < length s)%nat -> preview s = take 120 s ++ [8230%N]) /\
  Forall (fun e => (length (fst (fst (fst e))) <= 121)%nat
                   /\ (length (snd (fst (fst e))) <= 121)%nat)
    (elems (record_all calls initial_history)).
Proof.
  split; [| split].
  - intros H. unfold preview. destruct (Nat.ltb_spec 120 (length s)); [lia |].
    reflexivity.
  - intros H. unfold preview. destruct (Nat.ltb_spec 120 (length s)); [| lia].
    reflexivity.
  - assert (H0 : Forall (fun e : entry =>
                           (length (fst (fst (fst e))) <= 121)%nat
                           /\ (length (snd (fst (fst e))) <= 121)%nat)
                   (elems initial_history)) by constructor.
    revert H0. generalize initial_history.
    induction calls as [|[[[src dst] det] tgt] calls IH]; intros h Hh;
      [exact Hh |].
    apply (IH (_record_history src dst det tgt h)).
    unfold _record_history. apply deque_append_Forall; [| exact Hh].
    cbn. split; apply preview_length.
Qed.

Lemma history_previews_short_witness :
  preview (repeat 97%N 130) = take 120 (repeat 97%N 130) ++ [8230%N].
Proof.
  apply (proj1 (proj2 (history_previews_short [] (repeat 97%N 130)))).
  cbn. lia.
Defined.

(** ** Applying a result, copying and speaking it *)

Lemma deque_append_last {A : Type} (x : A) (d : deque A) :
  (0 < maxlen d)%nat -> last (elems (deque_append x d)) = Some x.
Proof.
  intros H. unfold deque_append. cbn [elems].
  destruct (Nat.ltb_spec (maxlen d) (length (elems d ++ [x]))) as [Hlt | _];
    [| apply last_snoc].
  rewrite length_app in Hlt. cbn in Hlt.
  destruct (elems d) as [|y l]; cbn in *; [lia |]. apply last_snoc.
Qed.

Lemma on_input_change_text (a : app) :
  source_text (_on_input_change a) = source_text a.
Proof. unfold _on_input_change. cbn. destruct (typing_job a); reflexivity. Qed.

Lemma copy_fields (w : window) :
  (strip (last_translation w) = [] ->
   clipboard (copy_translation w) = clipboard w) /\
  (strip (last_translation w) <> [] ->
   clipboard (copy_translation w) = strip (last_translation w)).
Proof.
  unfold copy_translation.
  destruct (strip (last_translation w)); split; intros H;
    try congruence; reflexivity.
Qed.

Lemma speak_fields (w : window) :
  (strip (last_translation w) = [] ->
   speakers (speak_translation w) = speakers w) /\
  (strip (last_translation w) <> [] ->
   speakers (speak_translation w)
   = speakers w ++ [strip (last_translation w)]).
Proof.
  unfold speak_translation.
  destruct (strip (last_translation w)); split; intros H;
    try congruence; reflexivity.
Qed.

Section Results.

Variable LANGUAGE_MAP : gmap string string.
Variable CODE_TO_NAME : gmap string string.

Local Abbreviation translate := (TranslatorApp.translate LANGUAGE_MAP).
Local Abbreviation run_until := (TranslatorApp.run_until LANGUAGE_MAP).
Local Abbreviation dispatch := (TranslatorApp.dispatch LANGUAGE_MAP).
Local Abbreviation key_release := (TranslatorApp.key_release LANGUAGE_MAP).
Local Abbreviation apply_result := (_apply_translation CODE_TO_NAME).
Local Abbreviation name_of := (name_of_code CODE_TO_NAME).

Lemma apply_result_fields (r : translated) (w : window) :
  core (apply_result r w)
  = set_status ("Translated " +:+ name_of (tr_src r) +:+ " → "
                +:+ name_of (tr_dest r) +:+ ".") (core w) /\
  last_translation (apply_result r w) = strip (tr_text r) /\
  last_detected (apply_result r w) = name_of (tr_src r) /\
  output_state (apply_result r w) = "disabled" /\
  clipboard (apply_result r w) = clipboard w /\
  speakers (apply_result r w) = speakers w /\
  history (apply_result r w)
  = _record_history (strip (source_text (core w))) (strip (tr_text r))
      (str_of_string (name_of (tr_src r)))
      (str_of_string (name_of (tr_dest r))) (history w).
Proof.
  unfold _apply_translation.
  destruct (String.eqb (name_of (tr_src r)) ""); repeat split.
Qed.

(** X13.  The history pairs a translation with what the input box holds
    when the result arrives, not with the text that was sent: after
    [translate] has started a thread for the text in the box and a key
    release has changed the text, applying the thread's result appends an
    entry whose source is the preview of the new text. *)
Theorem history_pairs_result_with_current_input
    (w : window) (r : translated) (fuel : nat) (t : Z) (text2 : str)
    (src tgt : string) :
  maxlen (history w) = 10%nat ->
  strip (source_text (core w)) <> [] ->
  source_code LANGUAGE_MAP (source_lang_var (core w)) = Some src ->
  LANGUAGE_MAP !! target_lang_var (core w) = Some tgt ->
  workers (core (on_core translate w))
  = workers (core w) ++ [(strip (source_text (core w)), src, tgt)] /\
  last (elems (history
                 (apply_result r
                    (on_core (key_release fuel t text2)
                       (on_core translate w)))))
  = Some (preview (strip text2), preview (strip (tr_text r)),
          str_of_string (name_of (tr_src r)),
          str_of_string (name_of (tr_dest r))).
Proof.
  intros Hmax Htext Hsrc Htgt. split.
  - cbn [on_core core with_core]. apply translate_starts; assumption.
  - destruct (apply_result_fields r
                (on_core (key_release fuel t text2) (on_core translate w)))
      as (_ & _ & _ & _ & _ & _ & ->).
    unfold _record_history. rewrite deque_append_last.
    + cbn [on_core core with_core]. unfold TranslatorApp.key_release.
      rewrite on_input_change_text. reflexivity.
    + cbn [on_core history with_core]. rewrite Hmax. lia.
Qed.

(** X14.  After a result has been applied the output box is read-only and
    Copy puts exactly the translation, stripped of surrounding white space,
    on the clipboard, while Speak starts one speech thread with that text; a
    blank translation is neither copied nor spoken. *)
Theorem copy_and_speak_use_stripped_translation (r : translated) (w : window) :
  output_state (apply_result r w) = "disabled" /\
  (strip (tr_text r) = [] ->
   clipboard (copy_translation (apply_result r w)) = clipboard w /\
   speakers (speak_translation (apply_result r w)) = speakers w) /\
  (strip (tr_text r) <> [] ->
   clipboard (copy_translation (apply_result r w)) = strip (tr_text r) /\
   speakers (speak_translation (apply_result r w))
   = speakers w ++ [strip (tr_text r)]).
Proof.
  destruct (apply_result_fields r w) as (_ & Hlast & _ & Hstate & Hclip & Hsp & _).
  split; [exact Hstate |].
  destruct (copy_fields (apply_result r w)) as [Hc0 Hc1].
  destruct (speak_fields (apply_result r w)) as [Hs0 Hs1].
  rewrite Hlast, strip_idempotent in Hc0, Hc1, Hs0, Hs1.
  split; intros H.
  - rewrite (Hc0 H), (Hs0 H). auto.
  - rewrite (Hc1 H), (Hs1 H), Hsp. auto.
Qed.

(** ** Clearing *)

Lemma blank_dispatch (t : Z) (a a' : app) :
  strip (source_text a) = [] -> dispatch t a = Some a' ->
  strip (source_text a') = [] /\ workers a' = workers a.
Proof.
  intros Hblank. unfold TranslatorApp.dispatch.
  destruct (earliest (timers a)) as [tm |]; [| discriminate].
  destruct (tm_due tm <=? t); [| discriminate].
  intros H. injection H as <-.
  destruct (tm_callback tm); cbn [run_callback].
  - rewrite TranslatorAppProofs.translate_blank by exact Hblank.
    split; [exact Hblank | reflexivity].
  - rewrite on_input_change_text, on_input_change_workers.
    split; [exact Hblank | reflexivity].
Qed.

Lemma blank_run_until (fuel : nat) (t : Z) :
  forall a, strip (source_text a) = [] ->
            workers (run_until fuel t a) = workers a.
Proof.
  induction fuel as [|fuel IH]; intros a Hblank; [reflexivity |].
  cbn [TranslatorApp.run_until].
  destruct (dispatch t a) as [a' |] eqn:Hd; [| reflexivity].
  destruct (blank_dispatch t a a' Hblank Hd) as [Hb Hw].
  rewrite (IH a' Hb). exact Hw.
Qed.

(** X15.  Clear empties both boxes and resets the counter to 0 words and 0
    characters, but cancels no timer and keeps the history; a pending
    auto-translate still fires, finds nothing to translate and starts no
    thread, whenever it runs, and until something is translated again Copy
    and Speak do nothing. *)
Theorem clear_text_leaves_nothing_to_translate
    (w : window) (fuel : nat) (t : Z) :
  source_text (core (clear_text w)) = [10%N] /\
  output_text (clear_text w) = [] /\
  char_count_var (core (clear_text w)) = (0, 0)%nat /\
  timers (core (clear_text w)) = timers (core w) /\
  typing_job (core (clear_text w)) = typing_job (core w) /\
  history (clear_text w) = history w /\
  workers (run_until fuel t (core (clear_text w))) = workers (core w) /\
  clipboard (copy_translation (clear_text w)) = clipboard w /\
  speakers (speak_translation (clear_text w)) = speakers w /\
  tts_rate (speak_translation (clear_text w)) = tts_rate w /\
  tts_volume (speak_translation (clear_text w)) = tts_volume w.
Proof.
  repeat split.
  rewrite blank_run_until; reflexivity.
Qed.

(** X16.  Speak does nothing but set the status while there is no
    translation; otherwise it starts one speech thread with the stripped
    translation after setting the engine's rate to the speed slider and its
    volume to a hundredth of the volume slider, which lies in [0, 1] for a
    slider in [0, 100]. *)
Theorem speak_sets_engine_from_sliders (w : window) :
  (strip (last_translation w) = [] ->
   speakers (speak_translation w) = speakers w /\
   tts_rate (speak_translation w) = tts_rate w /\
   tts_volume (speak_translation w) = tts_volume w) /\
  (strip (last_translation w) <> [] ->
   speakers (speak_translation w) = speakers w ++ [strip (last_translation w)] /\
   tts_rate (speak_translation w) = speed_var w /\
   tts_volume (speak_translation w) = (volume_var w / 100)%Q /\
   ((0 <= volume_var w <= 100)%Q ->
    (0 <= tts_volume (speak_translation w) <= 1)%Q)).
Proof.
  unfold speak_translation. split; intros H.
  - rewrite H. cbn. auto.
  - destruct (strip (last_translation w)) as [|c text]; [congruence |].
    cbn. repeat split; unfold Qdiv in *; cbn; lra.
Qed.

End Results.

Lemma history_pairs_result_with_current_input_witness :
  last (elems (history
                 (_apply_translation ∅
                    (mk_translated [104; 101; 108; 108; 111]%N "es" "en")
                    (on_core (key_release two_languages 2 50 [97; 10]%N)
                       (on_core (translate two_languages) hola_window)))))
  = Some (preview (strip [97; 10]%N),
          preview (strip [104; 101; 108; 108; 111]%N),
          str_of_string (name_of_code ∅ "es"),
          str_of_string (name_of_code ∅ "en")).
Proof.
  apply (proj2 (history_pairs_result_with_current_input two_languages ∅
                  hola_window
                  (mk_translated [104; 101; 108; 108; 111]%N "es" "en")
                  2 50 [97; 10]%N "es" "en"
                  eq_refl ltac:(vm_compute; discriminate) eq_refl eq_refl)).
Defined.

Lemma copy_and_speak_use_stripped_translation_witness :
  clipboard (copy_translation
               (_apply_translation ∅
                  (mk_translated [32; 104; 105; 10]%N "es" "en") hola_window))
  = strip [32; 104; 105; 10]%N.
Proof.
  apply (proj2 (proj2 (copy_and_speak_use_stripped_translation ∅
                         (mk_translated [32; 104; 105; 10]%N "es" "en")
                         hola_window))).
  vm_compute. discriminate.
Defined.

Lemma speak_sets_engine_from_sliders_witness :
  (0 <= tts_volume (speak_translation
                      (with_last_translation [104; 105]%N hola_window)) <= 1)%Q.
Proof.
  apply (proj2 (speak_sets_engine_from_sliders
                  (with_last_translation [104; 105]%N hola_window))).
  - vm_compute. discriminate.
  - split; discriminate.
Defined.

(** ** The language lists *)

Lemma filter_In_iff {A : Type} (f : A -> bool) (l : list A) (x : A) :
  x ∈ List.filter f l <-> x ∈ l /\ f x = true.
Proof. rewrite !list_elem_of_In. apply filter_In. Qed.

Lemma filter_sublist {A : Type} (f : A -> bool) (l : list A) :
  List.filter f l `sublist_of` l.
Proof.
  induction l as [|x l IH]; cbn; [constructor |].
  destruct (f x); [apply sublist_skip | apply sublist_cons]; exact IH.
Qed.

Lemma filter_StronglySorted {A : Type} (R : A -> A -> Prop) (f : A -> bool)
    (l : list A) :
  StronglySorted R l -> StronglySorted R (List.filter f l).
Proof.
  induction 1 as [|x l Hl IH Hx]; cbn; [constructor |].
  destruct (f x); [| exact IH]. constructor; [exact IH |].
  apply Forall_forall. intros y Hy. apply filter_In_iff in Hy.
  exact (proj1 (Forall_forall _ _) Hx y (proj1 Hy)).
Qed.

Lemma existsb_eqb_iff (name : string) (l : list string) :
  existsb (String.eqb name) l = true <-> name ∈ l.
Proof.
  rewrite existsb_exists, list_elem_of_In. split.
  - intros (x & Hx & Heq). apply String.eqb_eq in Heq. subst x. exact Hx.
  - intros H. exists name. split; [exact H | apply String.eqb_refl].
Qed.

Section Lists.

Variable LANGUAGE_MAP : gmap string string.

Local Abbreviation names := (LANGUAGE_NAMES LANGUAGE_MAP).
Local Abbreviation values := (_build_language_values LANGUAGE_MAP).
Local Abbreviation popular :=
  (List.filter (fun name => bool_decide (is_Some (LANGUAGE_MAP !! name)))
     (map title POPULAR_LANGUAGES)).
Local Abbreviation others :=
  (List.filter (fun name => negb (existsb (String.eqb name) popular)) names).

Lemma names_keys (name : string) :
  name ∈ names <-> is_Some (LANGUAGE_MAP !! name).
Proof.
  unfold LANGUAGE_NAMES. rewrite merge_sort_Permutation.
  rewrite list_elem_of_fmap. split.
  - intros ([k v] & -> & Hkv). apply elem_of_map_to_list in Hkv.
    cbn. rewrite Hkv. eauto.
  - intros [v Hv]. exists (name, v). split; [reflexivity |].
    apply elem_of_map_to_list. exact Hv.
Qed.

Lemma names_NoDup : NoDup names.
Proof.
  unfold LANGUAGE_NAMES. rewrite merge_sort_Permutation.
  apply NoDup_fst_map_to_list.
Qed.

Lemma popular_NoDup : NoDup popular.
Proof.
  apply NoDup_ListNoDup, List.NoDup_filter, NoDup_ListNoDup.
  vm_compute. repeat (constructor; [set_solver |]). constructor.
Qed.

(** X18.  The list of both dropdowns is the header of the popular
    languages, those of the five popular languages that the table knows, in
    their fixed order, the header of all languages, and the remaining
    names of the table in alphabetical order: every name of the table
    is listed exactly once. *)
Theorem language_values_list_every_name_once :
  values = ["— Popular —"] ++ popular ++ ["— All Languages —"] ++ others /\
  popular `sublist_of` POPULAR_LANGUAGES /\
  StronglySorted String.le others /\
  NoDup (popular ++ others) /\
  (forall name, name ∈ popular ++ others <-> is_Some (LANGUAGE_MAP !! name)).
Proof.
  split; [reflexivity |]. split; [| split; [| split]].
  - change POPULAR_LANGUAGES with (map title POPULAR_LANGUAGES).
    apply filter_sublist.
  - apply filter_StronglySorted.
    unfold LANGUAGE_NAMES. apply StronglySorted_merge_sort; apply _.
  - apply NoDup_app. split; [apply popular_NoDup |]. split.
    + intros name Hp Ho. apply filter_In_iff in Ho. destruct Ho as [_ Ho].
      apply negb_true_iff in Ho.
      apply (proj2 (existsb_eqb_iff name popular)) in Hp. congruence.
    + eapply sublist_NoDup; [apply names_NoDup | apply filter_sublist].
  - intros name. rewrite elem_of_app, !filter_In_iff, names_keys.
    rewrite bool_decide_eq_true, negb_true_iff. split.
    + intros [[_ H] | [H _]]; exact H.
    + intros H.
      destruct (existsb (String.eqb name) popular) eqn:Hex; [| auto].
      left. apply existsb_eqb_iff in Hex. apply filter_In_iff in Hex.
      destruct Hex as [Hin _]. auto.
Qed.

(** Whatever a combobox offers is a header or a name of the table. *)
Lemma values_known (value : string) :
  value ∈ values ->
  is_header value = true \/ is_Some (LANGUAGE_MAP !! value).
Proof.
  unfold _build_language_values. rewrite !elem_of_app.
  intros [H | [H | [H | H]]].
  - apply list_elem_of_singleton in H. subst value. left. reflexivity.
  - apply filter_In_iff in H. destruct H as [_ H].
    apply bool_decide_eq_true in H. right. exact H.
  - apply list_elem_of_singleton in H. subst value. left. reflexivity.
  - apply filter_In_iff in H. destruct H as [H _].
    right. apply names_keys. exact H.
Qed.

(** ** Selecting languages *)

Lemma pick_source_selectable (value : string) (w : window) :
  value ∈ source_values LANGUAGE_MAP ->
  selectable LANGUAGE_MAP w -> selectable LANGUAGE_MAP (pick_source value w).
Proof.
  intros Hoffered (Hs & Ht & Hsl & Htl).
  unfold pick_source, _handle_combo_selection.
  cbn [get_var set_var core with_core source_lang_var negb andb].
  destruct (is_header value) eqn:Hh.
  - unfold selectable. cbn. auto.
  - unfold selectable. cbn.
    assert (Hv : is_header value = false
                 /\ (value = "Auto Detect" \/ is_Some (LANGUAGE_MAP !! value))).
    { split; [exact Hh |]. unfold source_values in Hoffered.
      apply elem_of_cons in Hoffered. destruct Hoffered as [-> | Hin];
        [left; reflexivity |].
      destruct (values_known value Hin) as [H | H]; [congruence | auto]. }
    auto.
Qed.

Lemma pick_target_selectable (value : string) (w : window) :
  value ∈ target_values LANGUAGE_MAP ->
  selectable LANGUAGE_MAP w -> selectable LANGUAGE_MAP (pick_target value w).
Proof.
  intros Hoffered (Hs & Ht & Hsl & Htl).
  unfold pick_target, _handle_combo_selection.
  cbn [get_var set_var core with_core target_lang_var negb andb].
  destruct (is_header value) eqn:Hh.
  - unfold selectable. cbn. auto.
  - destruct (String.eqb value "Auto Detect") eqn:Hauto.
    + unfold selectable. cbn. auto.
    + unfold selectable. cbn. apply String.eqb_neq in Hauto.
      destruct (values_known value Hoffered) as [H | H]; [congruence |].
      auto 8.
Qed.

Lemma swap_selectable (w : window) :
  selectable LANGUAGE_MAP w ->
  selectable LANGUAGE_MAP (on_core swap_languages w).
Proof.
  intros ((Hsh & Hs) & ((Hth & Ht) & Hta) & Hsl & Htl).
  unfold on_core, swap_languages.
  destruct (String.eqb (source_lang_var (core w)) "Auto Detect") eqn:Hauto.
  - unfold selectable. cbn. auto 8.
  - apply String.eqb_neq in Hauto. unfold selectable. cbn.
    destruct Hs as [Hs | Hs]; [congruence |]. auto 8.
Qed.

(** X17.  From start-up on, whatever the user picks in the two comboboxes
    (headers included) and however often the languages are swapped, the
    source is "Auto Detect" or a name of the language table, the target is a
    name of the table and never "Auto Detect", and neither is a header: the
    two look-ups of [translate] cannot miss.  It takes "English", the
    target at start-up, to be a name of the table. *)
Theorem selections_stay_translatable
    (sels : list (selection)) (clip : str) (rate : Z) (volume : Q) :
  is_Some (LANGUAGE_MAP !! "English") ->
  Forall (offered LANGUAGE_MAP) sels ->
  is_Some (source_code LANGUAGE_MAP
             (source_lang_var
                (core (select_all sels
                         (initial_window clip rate volume))))) /\
  is_Some (LANGUAGE_MAP
             !! target_lang_var
                  (core (select_all sels
                           (initial_window clip rate volume)))) /\
  target_lang_var (core (select_all sels
                           (initial_window clip rate volume)))
  <> "Auto Detect" /\
  is_header (source_lang_var
               (core (select_all sels
                        (initial_window clip rate volume)))) = false /\
  is_header (target_lang_var
               (core (select_all sels
                        (initial_window clip rate volume)))) = false.
Proof.
  intros Henglish Hoffered.
  assert (H : selectable LANGUAGE_MAP
                (select_all sels (initial_window clip rate volume))).
  { assert (H0 : selectable LANGUAGE_MAP (initial_window clip rate volume)).
    { unfold selectable. cbn. repeat split; auto; discriminate. }
    revert H0. generalize (initial_window clip rate volume).
    induction Hoffered as [|sel sels Hsel _ IH]; intros w Hw; [exact Hw |].
    apply (IH (select sel w)).
    destruct sel as [value | value |]; cbn [select offered] in *.
    - apply pick_source_selectable; assumption.
    - apply pick_target_selectable; assumption.
    - apply swap_selectable. exact Hw. }
  destruct H as ((Hsh & Hs) & ((Hth & Ht) & Hta) & _).
  repeat split; try assumption.
  unfold source_code. destruct Hs as [-> | Hs]; [cbn; eauto |].
  destruct (String.eqb _ "Auto Detect"); [eauto | exact Hs].
Qed.

End Lists.

Lemma selections_stay_translatable_witness :
  is_Some (two_languages
             !! target_lang_var
                  (core (select_all
                           [sel_target "— Popular —"; sel_source "Spanish";
                            sel_swap; sel_source "— All Languages —"]
                           (initial_window [] 200 1)))).
Proof.
  apply (selections_stay_translatable two_languages
           [sel_target "— Popular —"; sel_source "Spanish";
            sel_swap; sel_source "— All Languages —"] [] 200 1).
  - vm_compute. eauto.
  - repeat constructor; vm_compute; set_solver.
Defined.

(** ** The theme *)

(** X19.  The Theme button alternates between the theme "darkly" with the
    dark colours and "flatly" with the light colours: after any press the
    index is 0 or 1 and theme and colours are those of the index; a press
    moves index 0 to 1 and 1 to 0, and two presses bring back index, theme
    and colours of a window that showed those of its index. *)
Theorem toggle_theme_alternates (w : window) :
  (theme_index (toggle_theme w) = 0
   /\ theme_name (toggle_theme w) = "darkly"
   /\ palette (toggle_theme w) = "dark"
   \/ theme_index (toggle_theme w) = 1
      /\ theme_name (toggle_theme w) = "flatly"
      /\ palette (toggle_theme w) = "light") /\
  (theme_index w = 0 \/ theme_index w = 1 ->
   theme_index (toggle_theme w) = 1 - theme_index w /\
   theme_index (toggle_theme (toggle_theme w)) = theme_index w /\
   (theme_name w = nth (Z.to_nat (theme_index w)) THEME_CYCLE "" ->
    theme_name (toggle_theme (toggle_theme w)) = theme_name w) /\
   (palette w = (if theme_index w =? 0 then "dark" else "light") ->
    palette (toggle_theme (toggle_theme w)) = palette w)).
Proof.
  assert (Hfields : forall v : window,
            theme_index (toggle_theme v) = (theme_index v + 1) mod 2 /\
            theme_name (toggle_theme v)
            = nth (Z.to_nat ((theme_index v + 1) mod 2)) THEME_CYCLE "" /\
            palette (toggle_theme v)
            = if (theme_index v + 1) mod 2 =? 0 then "dark" else "light")
    by (intros v; repeat split).
  split.
  - destruct (Hfields w) as (-> & -> & ->).
    pose proof (Z.mod_pos_bound (theme_index w + 1) 2 ltac:(lia)) as Hm.
    assert (Hc : (theme_index w + 1) mod 2 = 0 \/ (theme_index w + 1) mod 2 = 1)
      by lia.
    destruct Hc as [-> | ->]; [left | right]; repeat split.
  - intros H.
    destruct (Hfields (toggle_theme w)) as (-> & -> & ->).
    destruct (Hfields w) as (-> & _ & _).
    destruct H as [H | H]; rewrite H; repeat split;
      intros ->; reflexivity.
Qed.

Lemma toggle_theme_alternates_witness :
  theme_index (toggle_theme (toggle_theme (initial_window [] 200 1)))
  = theme_index (initial_window [] 200 1).
Proof.
  apply (proj2 (toggle_theme_alternates (initial_window [] 200 1))).
  left. reflexivity.
Defined.

(** ** Translating while the user types *)

Section AutoTranslate.

Variable LANGUAGE_MAP : gmap string string.

Local Abbreviation translate := (TranslatorApp.translate LANGUAGE_MAP).
Local Abbreviation run_until := (TranslatorApp.run_until LANGUAGE_MAP).
Local Abbreviation key_release := (TranslatorApp.key_release LANGUAGE_MAP).

Lemma key_release_idle_fields (fuel : nat) (t : Z) (text : str) (a : app) :
  timers a = [] ->
  source_text (key_release fuel t text a) = text /\
  source_lang_var (key_release fuel t text a) = source_lang_var a /\
  target_lang_var (key_release fuel t text a) = target_lang_var a.
Proof.
  intros Hidle. unfold TranslatorApp.key_release.
  rewrite (TranslatorAppProofs.run_until_idle LANGUAGE_MAP fuel t a
             (TranslatorAppProofs.dispatch_idle LANGUAGE_MAP t a Hidle)).
  unfold _on_input_change. cbn. destruct (typing_job a); repeat split.
Qed.

Lemma translate_clears_handle (a : app) (src tgt : string) :
  strip (source_text a) <> [] ->
  source_code LANGUAGE_MAP (source_lang_var a) = Some src ->
  LANGUAGE_MAP !! target_lang_var a = Some tgt ->
  typing_job (translate a) = None.
Proof.
  intros Htext Hsrc Htgt. unfold TranslatorApp.translate.
  destruct (strip (source_text a)) as [|c s]; [congruence |].
  rewrite Hsrc, Htgt. reflexivity.
Qed.

(** X20.  Typing into an idle application and then pausing translates by
    itself: once 650 have passed since the key release, exactly one
    translation thread has been started, for the text in the box without the
    white space around it and in the selected direction; the stored handle
    is cleared and no timer is left. *)
Theorem pause_after_typing_translates
    (a : app) (t : Z) (text : str) (fuel fuel' : nat) (T : Z)
    (src tgt : string) :
  timers a = [] -> now a <= t ->
  strip text <> [] ->
  source_code LANGUAGE_MAP (source_lang_var a) = Some src ->
  LANGUAGE_MAP !! target_lang_var a = Some tgt ->
  t + 650 <= T ->
  workers (run_until (S fuel') T (key_release fuel t text a))
  = workers a ++ [(strip text, src, tgt)] /\
  typing_job (run_until (S fuel') T (key_release fuel t text a)) = None /\
  timers (run_until (S fuel') T (key_release fuel t text a)) = [].
Proof.
  intros Hidle Hnow Htext Hsrc Htgt HT.
  destruct (TranslatorAppProofs.key_release_reschedules LANGUAGE_MAP fuel t
              text a (conj Hnow (or_introl Hidle)))
    as (Htimers & _ & _ & _ & Hworkers).
  destruct (key_release_idle_fields fuel t text a Hidle) as (Hs & Hsl & Htl).
  destruct (TranslatorAppProofs.run_until_fires_translate LANGUAGE_MAP fuel' T
              _ _ _ Htimers HT)
    as (a0 & -> & Ht0 & _ & Hw0 & Hs0 & Hsl0 & Htl0 & _).
  assert (Htext0 : strip (source_text a0) <> []) by (rewrite Hs0, Hs; exact Htext).
  assert (Hsrc0 : source_code LANGUAGE_MAP (source_lang_var a0) = Some src)
    by (rewrite Hsl0, Hsl; exact Hsrc).
  assert (Htgt0 : LANGUAGE_MAP !! target_lang_var a0 = Some tgt)
    by (rewrite Htl0, Htl; exact Htgt).
  split; [| split].
  - rewrite (translate_starts LANGUAGE_MAP a0 src tgt Htext0 Hsrc0 Htgt0).
    rewrite Hw0, Hworkers, Hs0, Hs. reflexivity.
  - eapply translate_clears_handle; eassumption.
  - destruct (TranslatorAppProofs.translate_frame LANGUAGE_MAP a0)
      as (_ & -> & _). exact Ht0.
Qed.

End AutoTranslate.

Lemma pause_after_typing_translates_witness :
  workers (run_until two_languages 1 1000
             (key_release two_languages 1 100 [32; 104; 105; 10]%N idle_app))
  = workers idle_app ++ [(strip [32; 104; 105; 10]%N, "auto", "es")].
Proof.
  apply (pause_after_typing_translates two_languages idle_app 100
           [32; 104; 105; 10]%N 1 0 1000 "auto" "es").
  - reflexivity.
  - cbn. lia.
  - vm_compute. discriminate.
  - reflexivity.
  - reflexivity.
  - lia.
Defined.

End TranslatorAppBehaviour.
